(** * xyppy-speech GUI front-end: a shallow embedding of [src/gui]

    The repository is a Tk front-end that runs an interactive-fiction
    interpreter on a worker thread, redirects the interpreter's standard
    streams to two queue-backed relays ([gui/pipe.py]), and polls the
    outbound relay from the interface thread ([gui/app.py]).

    Every Python method is embedded as a function from the receiver's state
    (and, where it has one, the state it shares with its caller) to an
    [outcome]: a normal return, a raised exception, a call that waits on a
    queue, or a loop that ran out of the fuel it was given. *)

From Stdlib Require Import ZArith List Bool Ascii String Lia.
Import ListNotations.
Open Scope string_scope.
Open Scope list_scope.
Open Scope Z_scope.

(* ================================================================== *)
(** ** The fragment of the Python runtime the sources rely on *)
(* ================================================================== *)

Module Py.

(** Exceptions that can travel through the embedded code.  [Empty] is
    [queue.Empty]; [SystemExit] is what [sys.exit(code)] raises. *)
Inductive exn : Type :=
| Empty
| IndexError
| UnsupportedOperation
| RuntimeError
| SystemExit (code : Z).

(** [except Exception:] catches every exception class that derives from
    [Exception]; [SystemExit] derives from [BaseException] only. *)
Definition is_Exception (e : exn) : bool :=
  match e with
  | SystemExit _ => false
  | _ => true
  end.

(** Result of running a method on a state of type [S]. *)
Inductive outcome (S A : Type) : Type :=
| Return (a : A) (s : S)      (* the call returned [a] *)
| Raise (e : exn) (s : S)     (* the call raised [e] *)
| Blocked (s : S)             (* the call waits on a queue condition *)
| OutOfFuel.                  (* the loop bound of the model was reached *)
Arguments Return {S A} a s.
Arguments Raise {S A} e s.
Arguments Blocked {S A} s.
Arguments OutOfFuel {S A}.

Definition bind {S A B} (m : outcome S A) (k : A -> S -> outcome S B)
  : outcome S B :=
  match m with
  | Return a s => k a s
  | Raise e s => Raise e s
  | Blocked s => Blocked s
  | OutOfFuel => OutOfFuel
  end.

(** Run [m] on a component of a larger state and store the component back
    with [put], whatever the way [m] ended. *)
Definition lift {S T A} (put : S -> T) (m : outcome S A) : outcome T A :=
  match m with
  | Return a s => Return a (put s)
  | Raise e s => Raise e (put s)
  | Blocked s => Blocked (put s)
  | OutOfFuel => OutOfFuel
  end.

(** The line terminator ["\n"]. *)
Definition LF : string := String (ascii_of_nat 10) EmptyString.

(** [len(s)] as a Python integer. *)
Definition len {A} (l : list A) : Z := Z.of_nat (List.length l).

(** [s.endswith(suffix)]. *)
Definition endswith (s suffix : string) : bool :=
  let n := String.length s in
  let m := String.length suffix in
  (m <=? n)%nat && String.eqb (substring (n - m) m s) suffix.

(** [c.isspace()] for the code points a [string] of this model can hold
    (0..255): TAB..CR, FS..US, SPACE, NEL and NBSP. *)
Definition isspace (c : ascii) : bool :=
  let n := nat_of_ascii c in
  ((9 <=? n) && (n <=? 13) || (28 <=? n) && (n <=? 32)
   || (n =? 133) || (n =? 160))%nat.

(** [s.lstrip()], [s.rstrip()] and [s.strip()] without arguments. *)
Fixpoint lstrip (s : string) : string :=
  match s with
  | EmptyString => EmptyString
  | String c s' => if isspace c then lstrip s' else s
  end.

Fixpoint rstrip (s : string) : string :=
  match s with
  | EmptyString => EmptyString
  | String c s' =>
      match rstrip s' with
      | EmptyString => if isspace c then EmptyString else String c EmptyString
      | r => String c r
      end
  end.

Definition strip (s : string) : string := rstrip (lstrip s).

(** Truth value of a [str] and of a [list] in a condition. *)
Definition truthy_str (s : string) : bool :=
  match s with EmptyString => false | _ => true end.

Definition truthy_list {A} (l : list A) : bool :=
  match l with [] => false | _ => true end.

(** [l[i]]: a negative index counts from the end, an index outside
    [-len(l) .. len(l)-1] raises [IndexError]. *)
Definition getitem (l : list string) (i : Z) : option string :=
  if (0 <=? i) && (i <? len l) then nth_error l (Z.to_nat i)
  else if (- len l <=? i) && (i <? 0) then nth_error l (Z.to_nat (len l + i))
  else None.

(** [s] ends with one line terminator and not with two. *)
Definition ends_with_one_LF (s : string) : bool :=
  endswith s LF && negb (endswith s (LF ++ LF)%string).

(** Every character of [s] is whitespace. *)
Fixpoint all_space (s : string) : bool :=
  match s with
  | EmptyString => true
  | String c s' => isspace c && all_space s'
  end.

End Py.
Import Py.

(* ================================================================== *)
(** ** [gui/pipe.py]: the queue-backed relay *)
(* ================================================================== *)

Module Pipe.

(** A [queue.Queue]: the bound [maxsize] and the queued items, oldest
    first. *)
Record t : Type := mk { maxsize : Z; queue : list string }.

(** [Pipe.__init__(maxsize=2048)]. *)
Definition default_maxsize : Z := 2048.
Definition init (maxsize : Z) : t := {| maxsize := maxsize; queue := [] |}.

Definition qsize (p : t) : Z := len (queue p).

(** [queue.Queue.full]: a queue whose [maxsize] is not positive is never
    full. *)
Definition full (p : t) : bool := (0 <? maxsize p) && (maxsize p <=? qsize p).

(** [queue.Queue.put(item)] with the default [block=True, timeout=None]:
    waits while the queue is full. *)
Definition put (item : string) (p : t) : outcome t unit :=
  if full p then Blocked p
  else Return tt {| maxsize := maxsize p; queue := queue p ++ [item] |}.

(** [queue.Queue.get()] with the default [block=True, timeout=None]:
    waits while the queue is empty. *)
Definition get (p : t) : outcome t string :=
  match queue p with
  | [] => Blocked p
  | item :: rest => Return item {| maxsize := maxsize p; queue := rest |}
  end.

(** [queue.Queue.get_nowait()]: raises [queue.Empty] on an empty queue. *)
Definition get_nowait (p : t) : outcome t string :=
  match queue p with
  | [] => Raise Empty p
  | item :: rest => Return item {| maxsize := maxsize p; queue := rest |}
  end.

(** The file-like methods of [Pipe]. *)
Definition write (s : string) (p : t) : outcome t unit := put s p.
Definition readline (p : t) : outcome t string := get p.
Definition flush (p : t) : outcome t unit := Return tt p.

(** Operations that the two ends of a relay issue, and the run of a
    schedule of them: an operation that would wait makes the schedule
    infeasible at that point ([Blocked]); [queue.Empty] out of a
    non-blocking read is what ends a drain, and yields no fragment. *)
Inductive op : Type :=
| Write (s : string)
| Readline
| GetNowait.

Definition step (o : op) (p : t) : outcome t (list string) :=
  match o with
  | Write s => bind (write s p) (fun _ p' => Return [] p')
  | Readline => bind (readline p) (fun s p' => Return [s] p')
  | GetNowait =>
      match get_nowait p with
      | Raise Empty p' => Return [] p'
      | r => bind r (fun s p' => Return [s] p')
      end
  end.

Fixpoint run (ops : list op) (p : t) : outcome t (list string) :=
  match ops with
  | [] => Return [] p
  | o :: ops' =>
      bind (step o p) (fun out p' =>
      bind (run ops' p') (fun out' p'' => Return (out ++ out') p''))
  end.

(** The fragments a schedule writes, in order. *)
Fixpoint writes (ops : list op) : list string :=
  match ops with
  | [] => []
  | Write s :: ops' => s :: writes ops'
  | _ :: ops' => writes ops'
  end.

(** [n] blocking reads in a row. *)
Fixpoint readlines (n : nat) (p : t) : outcome t (list string) :=
  match n with
  | O => Return [] p
  | S n' =>
      bind (readline p) (fun s p' =>
      bind (readlines n' p') (fun rest p'' => Return (s :: rest) p''))
  end.

(** A schedule that exists for every sequence of fragments and every
    bound: each write is followed by a blocking read. *)
Definition alternate (fs : list string) : list op :=
  flat_map (fun f => [Write f; Readline]) fs.

End Pipe.

(* ================================================================== *)
(** ** The [tkinter.Text] operations the widgets use *)
(* ================================================================== *)

Module TkText.

Inductive widget_state : Type := NORMAL | DISABLED.

(** [buffer] is what [get("1.0", "end-1c")] returns: the whole text
    without the newline Tk keeps after the last character.  Fonts,
    wrapping, geometry and the scroll position are not part of the
    model. *)
Record t : Type := mk { buffer : string; state : widget_state }.

(** [w.get("1.0", "end-1c")]. *)
Definition get_all (w : t) : string := buffer w.

(** [w.configure(state=st)]. *)
Definition configure_state (st : widget_state) (w : t) : t :=
  {| buffer := buffer w; state := st |}.

(** [w.delete("1.0", "end")]; a disabled widget ignores edits. *)
Definition delete_all (w : t) : t :=
  match state w with
  | NORMAL => {| buffer := EmptyString; state := state w |}
  | DISABLED => w
  end.

(** [w.insert("end", s)]; a disabled widget ignores edits. *)
Definition insert_end (s : string) (w : t) : t :=
  match state w with
  | NORMAL => {| buffer := (buffer w ++ s)%string; state := state w |}
  | DISABLED => w
  end.

(** [w.see("end")] only moves the scroll position. *)
Definition see_end (w : t) : t := w.

End TkText.

(* ================================================================== *)
(** ** [gui/widgets/transcript.py] *)
(* ================================================================== *)

Module Transcript.

Definition t : Type := TkText.t.

(** [Transcript.__init__]: an empty text created with
    [state="disabled"]. *)
Definition init : t :=
  {| TkText.buffer := EmptyString; TkText.state := TkText.DISABLED |}.

Definition append (text : string) (self : t) : t :=
  let self := TkText.configure_state TkText.NORMAL self in
  let self := TkText.insert_end text self in
  let self := TkText.see_end self in
  TkText.configure_state TkText.DISABLED self.

End Transcript.

(* ================================================================== *)
(** ** [gui/widgets/inputbox.py] *)
(* ================================================================== *)

Module InputBox.

(** The value every key handler returns to Tk to stop the default
    handling of the key. *)
Definition break : string := "break".

Section WithCallback.

(** [W] is the state the submission callback acts on. *)
Context {W : Type}.

Record t : Type := mk {
  tk : TkText.t;   (* the inherited [tk.Text] part *)
  on_submit : string -> W -> outcome W unit;
  history : list string;
  history_idx : Z
}.

Definition set_tk (x : TkText.t) (self : t) : t :=
  {| tk := x; on_submit := on_submit self;
     history := history self; history_idx := history_idx self |}.

Definition set_history (h : list string) (self : t) : t :=
  {| tk := tk self; on_submit := on_submit self;
     history := h; history_idx := history_idx self |}.

Definition set_history_idx (i : Z) (self : t) : t :=
  {| tk := tk self; on_submit := on_submit self;
     history := history self; history_idx := i |}.

(** [InputBox.__init__(master, on_submit)]: an editable, empty text. *)
Definition init (cb : string -> W -> outcome W unit) : t :=
  {| tk := {| TkText.buffer := EmptyString;
                TkText.state := TkText.NORMAL |};
     on_submit := cb; history := []; history_idx := 0 |}.

Definition _get_current_line (self : t) : string :=
  TkText.get_all (tk self).

Definition _submit (self : t) (w : W) : outcome (t * W) string :=
  let text := strip (_get_current_line self) in
  let self := set_tk (TkText.delete_all (tk self)) self in
  if truthy_str text then
    let self := set_history (history self ++ [text]) self in
    let self := set_history_idx (len (history self)) self in
    bind (lift (fun w' => (self, w')) (on_submit self text w))
         (fun _ s => Return break s)
  else Return break (self, w).

Definition _show_history (self : t) : outcome t unit :=
  let self := set_tk (TkText.delete_all (tk self)) self in
  if history_idx self <? len (history self) then
    match getitem (history self) (history_idx self) with
    | Some entry =>
        Return tt (set_tk (TkText.insert_end entry (tk self)) self)
    | None => Raise IndexError self
    end
  else Return tt self.

Definition _hist_prev (self : t) : outcome t string :=
  if truthy_list (history self) then
    let self := set_history_idx (Z.max 0 (history_idx self - 1)) self in
    bind (_show_history self) (fun _ self => Return break self)
  else Return break self.

Definition _hist_next (self : t) : outcome t string :=
  if truthy_list (history self) then
    let self :=
      set_history_idx (Z.min (len (history self)) (history_idx self + 1))
                      self in
    bind (_show_history self) (fun _ self => Return break self)
  else Return break self.

(** What the user sees in the input surface. *)
Definition shown (self : t) : string := _get_current_line self.

(** The state every handler expects: the widget is editable (it is
    created so and never reconfigured) and the cursor lies in
    [0 .. len(history)]. *)
Definition wf (self : t) : Prop :=
  TkText.state (tk self) = TkText.NORMAL /\
  0 <= history_idx self <= len (history self).

(** The key bindings made by [__init__]: [<Return>], [<Up>] and
    [<Down>]. *)
Inductive key : Type := Key_Return | Key_Up | Key_Down.

Definition press (k : key) (self : t) (w : W) : outcome (t * W) string :=
  match k with
  | Key_Return => _submit self w
  | Key_Up => lift (fun self' => (self', w)) (_hist_prev self)
  | Key_Down => lift (fun self' => (self', w)) (_hist_next self)
  end.

(** What the user does to the box: editing the surface (which leaves any
    text [s] in an editable widget) and pressing one of the bound keys. *)
Definition edit (s : string) (self : t) : t :=
  match TkText.state (tk self) with
  | TkText.NORMAL =>
      set_tk {| TkText.buffer := s; TkText.state := TkText.NORMAL |} self
  | TkText.DISABLED => self
  end.

Inductive event : Type :=
| Edit (s : string)
| Press (k : key).

Fixpoint run_events (evs : list event) (self : t) (w : W)
  : outcome (t * W) unit :=
  match evs with
  | [] => Return tt (self, w)
  | Edit s :: evs' => run_events evs' (edit s self) w
  | Press k :: evs' =>
      bind (press k self w) (fun _ st => run_events evs' (fst st) (snd st))
  end.

End WithCallback.
Arguments t W : clear implicits.

End InputBox.

(* ================================================================== *)
(** ** The [sys] module of the interpreter process *)
(* ================================================================== *)

Module Sys.

(** The objects [sys.stdin] and [sys.stdout] can be bound to: the streams
    the process was started with, and the two relays of the process's
    [EngineThread] ([self.stdin_pipe] and [self.stdout_pipe]). *)
Inductive stream : Type :=
| Console_stdin
| Console_stdout
| StdinPipe
| StdoutPipe.

(** The attributes of the module object.  There is one module object per
    process: an assignment to [sys.stdin] rebinds the attribute for every
    thread. *)
Record t : Type := mk {
  argv : list string;
  stdin : stream;
  stdout : stream
}.

(** The module at interpreter start. *)
Definition init (argv : list string) : t :=
  {| argv := argv; stdin := Console_stdin; stdout := Console_stdout |}.

Inductive thread : Type := MainThread | WorkerThread.

(** What [sys.stdin] and [sys.stdout] evaluate to in thread [th]: an
    attribute lookup on the shared module object. *)
Definition stdio_seen_by (th : thread) (sys : t) : stream * stream :=
  (stdin sys, stdout sys).

End Sys.

(* ================================================================== *)
(** ** [gui/engine_thread.py] *)
(* ================================================================== *)

Module EngineThread.

Record t : Type := mk {
  argv : list string;
  stdin_pipe : Pipe.t;
  stdout_pipe : Pipe.t;
  started : bool             (* [threading.Thread] bookkeeping *)
}.

Definition set_stdin_pipe (p : Pipe.t) (self : t) : t :=
  {| argv := argv self; stdin_pipe := p;
     stdout_pipe := stdout_pipe self; started := started self |}.

Definition set_stdout_pipe (p : Pipe.t) (self : t) : t :=
  {| argv := argv self; stdin_pipe := stdin_pipe self;
     stdout_pipe := p; started := started self |}.

(** [EngineThread.__init__(argv)]. *)
Definition init (argv : list string) : t :=
  {| argv := argv;
     stdin_pipe := Pipe.init Pipe.default_maxsize;
     stdout_pipe := Pipe.init Pipe.default_maxsize;
     started := false |}.

Definition to_engine (self : t) : Pipe.t := stdin_pipe self.
Definition from_engine (self : t) : Pipe.t := stdout_pipe self.

(** [threading.Thread.start]: a thread can be started once; [run] then
    executes on the new thread. *)
Definition start (self : t) : outcome t unit :=
  if started self then Raise RuntimeError self
  else Return tt {| argv := argv self; stdin_pipe := stdin_pipe self;
                    stdout_pipe := stdout_pipe self; started := true |}.

(** The interpreter's entry point [xyppy.__main__.main] is external: it
    is a parameter of [run], acting on the [sys] module and, through the
    streams bound there, on the relays of [self]. *)
Definition engine : Type := Sys.t * t -> outcome (Sys.t * t) unit.

Definition run (xyppy_main : engine) (st : Sys.t * t)
  : outcome (Sys.t * t) unit :=
  let '(sys, self) := st in
  let sys := {| Sys.argv := Sys.argv sys; Sys.stdin := Sys.StdinPipe;
                Sys.stdout := Sys.stdout sys |} in
  let sys := {| Sys.argv := Sys.argv sys; Sys.stdin := Sys.stdin sys;
                Sys.stdout := Sys.StdoutPipe |} in
  let sys := {| Sys.argv := "xyppy" :: argv self; Sys.stdin := Sys.stdin sys;
                Sys.stdout := Sys.stdout sys |} in
  xyppy_main (sys, self).

Definition enqueue_line (line : string) (self : t) : outcome t unit :=
  let line := if negb (endswith line LF) then (line ++ LF)%string
              else line in
  lift (fun p => set_stdin_pipe p self) (Pipe.write line (stdin_pipe self)).

(** [self.enqueue_line(line)] followed by a blocking read from the
    inbound relay. *)
Definition enqueue_then_read (line : string) (self : t)
  : outcome t string :=
  bind (enqueue_line line self) (fun _ self =>
  lift (fun p => set_stdin_pipe p self) (Pipe.readline (to_engine self))).

(** [self.enqueue_line] called once per line of [ls], in order. *)
Fixpoint enqueue_lines (ls : list string) (self : t) : outcome t unit :=
  match ls with
  | [] => Return tt self
  | l :: ls' => bind (enqueue_line l self) (fun _ self => enqueue_lines ls' self)
  end.

End EngineThread.

(* ================================================================== *)
(** ** [gui/app.py] *)
(* ================================================================== *)

Module GameApp.

(** Callbacks registered with [self.after]. *)
Inductive callback : Type := Poll_engine.

(** The window title, its geometry, the grid layout and the two
    placeholder frames hold no state that a method reads back; they are
    left out. *)
Record t : Type := mk {
  engine : EngineThread.t;
  transcript : Transcript.t;
  input_box : InputBox.t EngineThread.t;
  timers : list (Z * callback);   (* pending [after(ms, callback)] calls *)
  in_mainloop : bool
}.

Definition set_engine (e : EngineThread.t) (self : t) : t :=
  {| engine := e; transcript := transcript self;
     input_box := input_box self; timers := timers self;
     in_mainloop := in_mainloop self |}.

Definition set_transcript (x : Transcript.t) (self : t) : t :=
  {| engine := engine self; transcript := x;
     input_box := input_box self; timers := timers self;
     in_mainloop := in_mainloop self |}.

(** [self.after(ms, cb)]. *)
Definition after (ms : Z) (cb : callback) (self : t) : t :=
  {| engine := engine self; transcript := transcript self;
     input_box := input_box self; timers := timers self ++ [(ms, cb)];
     in_mainloop := in_mainloop self |}.

(** [self.mainloop()]: the Tk event loop takes over. *)
Definition mainloop (self : t) : t :=
  {| engine := engine self; transcript := transcript self;
     input_box := input_box self; timers := timers self;
     in_mainloop := true |}.

(** [self._on_command], the submission callback handed to the input
    box: it acts on [self.engine]. *)
Definition _on_command (text : string) (e : EngineThread.t)
  : outcome EngineThread.t unit :=
  EngineThread.enqueue_line text e.

Section WithConfig.

(** [gui/config.py] is not among the sources: its constant is a
    parameter. *)
Variable POLL_MS : Z.

(** [GameApp.__init__(story_path)], with [story] the text
    [str(story_path)]. *)
Definition init (story : string) : outcome t unit :=
  let widgets e :=
    {| engine := e;
       transcript := Transcript.init;
       input_box := InputBox.init _on_command;
       timers := [];
       in_mainloop := false |} in
  bind (lift widgets (EngineThread.start (EngineThread.init [story])))
       (fun _ self => Return tt (after POLL_MS Poll_engine self)).

(** The [while True] loop of [_poll_engine]; it can only end by an
    exception. *)
Fixpoint poll_loop (fuel : nat) (self : t) : outcome t unit :=
  match fuel with
  | O => OutOfFuel
  | S fuel' =>
      bind (lift (fun p => set_engine
                             (EngineThread.set_stdout_pipe p (engine self))
                             self)
                 (Pipe.get_nowait (EngineThread.from_engine (engine self))))
           (fun chunk self =>
              let self :=
                set_transcript (Transcript.append chunk (transcript self))
                               self in
              poll_loop fuel' self)
  end.

Definition _poll_engine (fuel : nat) (self : t) : outcome t unit :=
  let r :=
    match poll_loop fuel self with
    | Raise e self' =>
        if is_Exception e then Return tt self' else Raise e self'
    | r => r
    end in
  bind r (fun _ self => Return tt (after POLL_MS Poll_engine self)).

End WithConfig.

(** The application object once the poll loop has moved the chunks [q]
    queued in the outbound relay, bounded by [m], into the transcript. *)
Definition moved (m : Z) (q : list string) (self : t) : t :=
  set_transcript
    (fold_left (fun w c => Transcript.append c w) q (transcript self))
    (set_engine
       (EngineThread.set_stdout_pipe (Pipe.init m) (engine self)) self).

End GameApp.

(* ================================================================== *)
(** ** The process: [sys], the console, and the application object *)
(* ================================================================== *)

Module Process.

Record t : Type := mk {
  sys : Sys.t;
  console : list string;     (* what was written to the original stdout *)
  gui : option GameApp.t
}.

Definition init (argv : list string) : t :=
  {| sys := Sys.init argv; console := []; gui := None |}.

(** [stream.write(s)] for the object a standard stream is bound to.  A
    relay is bound only by [EngineThread.run], so the application object
    exists whenever the stream is a relay. *)
Definition stream_write (f : Sys.stream) (s : string) (proc : t)
  : outcome t unit :=
  match f with
  | Sys.Console_stdout =>
      Return tt {| sys := sys proc; console := console proc ++ [s];
                   gui := gui proc |}
  | Sys.Console_stdin => Raise UnsupportedOperation proc
  | Sys.StdinPipe | Sys.StdoutPipe =>
      match gui proc with
      | None => Raise UnsupportedOperation proc
      | Some app =>
          let e := GameApp.engine app in
          let put p :=
            {| sys := sys proc; console := console proc;
               gui := Some (GameApp.set_engine
                              (match f with
                               | Sys.StdinPipe =>
                                   EngineThread.set_stdin_pipe p e
                               | _ => EngineThread.set_stdout_pipe p e
                               end) app) |} in
          lift put (Pipe.write s
                      (match f with
                       | Sys.StdinPipe => EngineThread.stdin_pipe e
                       | _ => EngineThread.stdout_pipe e
                       end))
      end
  end.

(** [print(text)]: the text, then the line end, to [sys.stdout]. *)
Definition print (text : string) (proc : t) : outcome t unit :=
  bind (stream_write (Sys.stdout (sys proc)) text proc) (fun _ proc =>
  stream_write (Sys.stdout (sys proc)) LF proc).

(** [sys.exit(code)]. *)
Definition exit {A} (code : Z) (proc : t) : outcome t A :=
  Raise (SystemExit code) proc.

Definition usage : string := "Usage: python -m gui.app STORY_FILE.z5".

Section WithConfig.

Variable POLL_MS : Z.
(** [str(Path(s))] belongs to [pathlib]. *)
Variable Path : string -> string.

(** [main()] of [gui/app.py]. *)
Definition main (proc : t) : outcome t unit :=
  if len (Sys.argv (sys proc)) <? 2 then
    bind (print usage proc) (fun _ proc => exit 1 proc)
  else
    match getitem (Sys.argv (sys proc)) 1 with
    | None => Raise IndexError proc
    | Some arg =>
        lift (fun app => {| sys := sys proc; console := console proc;
                            gui := Some app |})
             (bind (GameApp.init POLL_MS (Path arg))
                   (fun _ app => Return tt (GameApp.mainloop app)))
    end.

End WithConfig.

(** The exit status of the process when its main module ends with [r]. *)
Definition exit_status {A} (r : outcome t A) : option Z :=
  match r with
  | Return _ _ => Some 0
  | Raise (SystemExit code) _ => Some code
  | Raise _ _ => Some 1
  | _ => None
  end.

(** The body of the worker thread, run in the process: [EngineThread.run]
    on the process's [sys] module and on the engine object of the
    application. *)
Definition run_worker (xyppy_main : EngineThread.engine) (proc : t)
  : outcome t unit :=
  match gui proc with
  | None => Return tt proc
  | Some app =>
      lift (fun st : Sys.t * EngineThread.t =>
              {| sys := fst st; console := console proc;
                 gui := Some (GameApp.set_engine (snd st) app) |})
           (EngineThread.run xyppy_main (sys proc, GameApp.engine app))
  end.

(** An engine whose entry point returns at once, touching nothing. *)
Definition idle_engine : EngineThread.engine := fun st => Return tt st.

End Process.

(* ================================================================== *)
(** ** The runtime model on concrete values *)
(* ================================================================== *)

Example strip_padded :
  strip (" " ++ LF ++ " take  lamp " ++ LF)%string = "take  lamp".
Proof. reflexivity. Qed.

Example strip_blank : strip ("   " ++ LF)%string = EmptyString.
Proof. reflexivity. Qed.

Example endswith_examples :
  endswith ("look" ++ LF)%string LF = true /\
  endswith "look" LF = false /\
  endswith EmptyString LF = false /\
  endswith "look" EmptyString = true.
Proof. repeat split. Qed.

Example getitem_examples :
  getitem ["north"; "take lamp"] 1 = Some "take lamp" /\
  getitem ["north"; "take lamp"] (-1) = Some "take lamp" /\
  getitem ["north"; "take lamp"] 2 = None /\
  getitem ["north"; "take lamp"] (-3) = None.
Proof. repeat split. Qed.

Example put_waits_when_full :
  Pipe.put "c" {| Pipe.maxsize := 2; Pipe.queue := ["a"; "b"] |}
  = Blocked {| Pipe.maxsize := 2; Pipe.queue := ["a"; "b"] |} /\
  Pipe.put "c" {| Pipe.maxsize := 0; Pipe.queue := ["a"; "b"] |}
  = Return tt {| Pipe.maxsize := 0; Pipe.queue := ["a"; "b"; "c"] |}.
Proof. split; reflexivity. Qed.

Section StripFacts.

Lemma lstrip_decompose (s : string) :
  exists ws : string,
    s = (ws ++ lstrip s)%string /\ all_space ws = true /\
    match lstrip s with
    | EmptyString => True
    | String c _ => isspace c = false
    end.
Proof.
  induction s as [|c s [ws [Hs [Hws Hhd]]]]; simpl.
  - exists EmptyString. auto.
  - destruct (isspace c) eqn:E.
    + exists (String c ws). simpl. rewrite E, Hws. repeat split; auto.
      now rewrite <- Hs.
    + exists EmptyString. simpl. auto.
Qed.

Lemma rstrip_decompose (s : string) :
  exists ws : string, s = (rstrip s ++ ws)%string /\ all_space ws = true.
Proof.
  induction s as [|c s [ws [Hs Hws]]]; simpl.
  - exists EmptyString. auto.
  - destruct (rstrip s) as [|d r] eqn:R.
    + simpl in Hs. destruct (isspace c) eqn:E.
      * exists (String c ws). simpl. rewrite E, Hws, <- Hs. auto.
      * exists ws. simpl. subst ws. auto.
    + exists ws. simpl. split; [|exact Hws]. f_equal. exact Hs.
Qed.

Lemma rstrip_idempotent (s : string) : rstrip (rstrip s) = rstrip s.
Proof.
  induction s as [|c s IH]; simpl; [reflexivity|].
  destruct (rstrip s) as [|d r] eqn:R.
  - destruct (isspace c) eqn:E; simpl; [reflexivity | now rewrite E].
  - change (rstrip (String c (String d r))) with
      (match rstrip (String d r) with
       | EmptyString => if isspace c then EmptyString else String c EmptyString
       | x => String c x
       end).
    rewrite IH. reflexivity.
Qed.

Lemma rstrip_keeps_head (c : ascii) (s : string) :
  isspace c = false -> exists r, rstrip (String c s) = String c r.
Proof.
  intros E. simpl. destruct (rstrip s); [rewrite E|]; eauto.
Qed.

(** [strip] removes whitespace at both ends and nothing else: the text is
    the stripped text between two runs of whitespace, and the stripped
    text has no whitespace left to strip at either end. *)
Lemma strip_decompose (s : string) :
  exists pre post : string,
    s = (pre ++ strip s ++ post)%string /\
    all_space pre = true /\ all_space post = true /\
    lstrip (strip s) = strip s /\ rstrip (strip s) = strip s.
Proof.
  destruct (lstrip_decompose s) as [pre [Hs [Hpre Hhd]]].
  destruct (rstrip_decompose (lstrip s)) as [post [Ht Hpost]].
  exists pre, post. unfold strip.
  split; [rewrite <- Ht; exact Hs|]. split; [exact Hpre|].
  split; [exact Hpost|]. split; [|apply rstrip_idempotent].
  destruct (lstrip s) as [|c t]; [reflexivity|].
  destruct (rstrip_keeps_head c t Hhd) as [r Hr]. rewrite Hr.
  simpl. now rewrite Hhd.
Qed.

End StripFacts.

(* ================================================================== *)
(** ** Properties of the relay *)
(* ================================================================== *)

Section PipeFacts.

Lemma pipe_eta (p : Pipe.t) :
  {| Pipe.maxsize := Pipe.maxsize p; Pipe.queue := Pipe.queue p |} = p.
Proof. destruct p; reflexivity. Qed.

Lemma full_init (m : Z) : Pipe.full (Pipe.init m) = false.
Proof.
  unfold Pipe.full, Pipe.init, Pipe.qsize, len; simpl.
  destruct (0 <? m) eqn:E; simpl; [apply Z.leb_gt; apply Z.ltb_lt in E; lia | reflexivity].
Qed.

(** One operation of a feasible schedule: the bound is kept, and what was
    read followed by what is queued is what was queued followed by what
    was written. *)
Lemma step_fifo (o : Pipe.op) (p p' : Pipe.t) (out : list string) :
  Pipe.step o p = Return out p' ->
  Pipe.maxsize p' = Pipe.maxsize p /\
  out ++ Pipe.queue p' = Pipe.queue p ++ Pipe.writes [o].
Proof.
  destruct o as [s | | ]; unfold Pipe.step, Pipe.write, Pipe.put,
    Pipe.readline, Pipe.get, Pipe.get_nowait; simpl.
  - destruct (Pipe.full p); simpl; intros H; inversion H; subst; simpl; auto.
  - destruct (Pipe.queue p) as [|x rest] eqn:Q; simpl; intros H;
      inversion H; subst; simpl; rewrite app_nil_r; auto.
  - destruct (Pipe.queue p) as [|x rest] eqn:Q; simpl; intros H;
      inversion H; subst; simpl; rewrite ?Q, ?app_nil_r; auto.
Qed.

Lemma run_fifo (ops : list Pipe.op) :
  forall (p p' : Pipe.t) (out : list string),
    Pipe.run ops p = Return out p' ->
    Pipe.maxsize p' = Pipe.maxsize p /\
    out ++ Pipe.queue p' = Pipe.queue p ++ Pipe.writes ops.
Proof.
  induction ops as [|o ops IH]; intros p p' out; simpl.
  - intros H; inversion H; subst; simpl; rewrite app_nil_r; auto.
  - destruct (Pipe.step o p) as [o1 p1| | |] eqn:S1; simpl; try discriminate.
    destruct (Pipe.run ops p1) as [o2 p2| | |] eqn:R2; simpl; try discriminate.
    intros H; inversion H; subst; clear H.
    apply step_fifo in S1; destruct S1 as [M1 F1].
    apply IH in R2; destruct R2 as [M2 F2].
    split; [congruence|].
    rewrite <- app_assoc, F2, app_assoc, F1; simpl.
    rewrite <- app_assoc. f_equal.
    destruct o; simpl; auto.
Qed.

(** Blocking reads, one per queued fragment, return the queue and leave
    the relay empty. *)
Lemma readlines_drain (q : list string) (m : Z) :
  Pipe.readlines (List.length q) {| Pipe.maxsize := m; Pipe.queue := q |}
  = Return q (Pipe.init m).
Proof.
  induction q as [|x q IH]; simpl; [reflexivity|].
  unfold Pipe.readline, Pipe.get; simpl. rewrite IH; reflexivity.
Qed.

(** Non-blocking reads, at least one per queued fragment, return the
    queue and leave the relay empty; the reads in excess find it empty. *)
Lemma get_nowait_drain (q : list string) (m : Z) :
  forall n, (List.length q <= n)%nat ->
    Pipe.run (repeat Pipe.GetNowait n)
             {| Pipe.maxsize := m; Pipe.queue := q |}
    = Return q (Pipe.init m).
Proof.
  induction q as [|x q IH]; intros n Hn.
  - clear Hn. induction n as [|n IHn]; [reflexivity|].
    cbn [repeat Pipe.run Pipe.step Pipe.get_nowait Pipe.queue bind].
    rewrite IHn; reflexivity.
  - destruct n as [|n]; simpl in Hn; [lia|].
    cbn [repeat Pipe.run Pipe.step Pipe.get_nowait Pipe.queue
         Pipe.maxsize bind].
    rewrite IH by lia. reflexivity.
Qed.

Lemma alternate_runs (m : Z) (fs : list string) :
  Pipe.writes (Pipe.alternate fs) = fs /\
  Pipe.run (Pipe.alternate fs) (Pipe.init m) = Return fs (Pipe.init m).
Proof.
  induction fs as [|f fs [IHw IHr]]; simpl; [auto|].
  split; [f_equal; exact IHw|].
  unfold Pipe.write, Pipe.put. rewrite full_init. simpl.
  unfold Pipe.readline, Pipe.get; simpl. fold (Pipe.init m).
  rewrite IHr; reflexivity.
Qed.

(** Writes alone never wait as long as the fragments fit under the
    bound. *)
Lemma write_all (fs : list string) :
  forall (m : Z) (q : list string),
    m <= 0 \/ len q + len fs <= m ->
    Pipe.run (map Pipe.Write fs) {| Pipe.maxsize := m; Pipe.queue := q |}
    = Return [] {| Pipe.maxsize := m; Pipe.queue := q ++ fs |}.
Proof.
  induction fs as [|f fs IH]; intros m q Hm; simpl.
  - now rewrite app_nil_r.
  - unfold Pipe.write, Pipe.put, Pipe.full, Pipe.qsize. simpl.
    assert (E : (0 <? m) && (m <=? len q) = false).
    { unfold len in *. simpl in Hm.
      destruct (0 <? m) eqn:E0; simpl; [|reflexivity].
      apply Z.ltb_lt in E0. apply Z.leb_gt. lia. }
    rewrite E. simpl. rewrite IH.
    + simpl. now rewrite <- app_assoc.
    + unfold len in *. rewrite length_app. simpl in *. lia.
Qed.

End PipeFacts.

(* ================================================================== *)
(** ** Properties of the transcript and of the poll loop *)
(* ================================================================== *)

Section PollFacts.

Variable POLL_MS : Z.

Lemma append_buffer (text : string) (w : Transcript.t) :
  TkText.buffer (Transcript.append text w) = (TkText.buffer w ++ text)%string.
Proof. reflexivity. Qed.

Lemma append_state (text : string) (w : Transcript.t) :
  TkText.state (Transcript.append text w) = TkText.DISABLED.
Proof. reflexivity. Qed.

Lemma string_app_assoc (a b c : string) :
  ((a ++ b) ++ c = a ++ (b ++ c))%string.
Proof. induction a as [|x a IH]; simpl; [reflexivity | now rewrite IH]. Qed.

Lemma string_app_nil_r (a : string) : (a ++ "")%string = a.
Proof. induction a as [|x a IH]; simpl; [reflexivity | now rewrite IH]. Qed.

(** Appending the chunks of [q] one after the other appends their
    concatenation. *)
Lemma fold_append_buffer (q : list string) :
  forall w : Transcript.t,
    TkText.buffer (fold_left (fun w c => Transcript.append c w) q w)
    = (TkText.buffer w ++ String.concat "" q)%string.
Proof.
  induction q as [|c q IH]; intros w; simpl.
  - now rewrite string_app_nil_r.
  - rewrite IH, append_buffer, string_app_assoc. f_equal.
    destruct q; simpl; [now rewrite string_app_nil_r | reflexivity].
Qed.

(** With more fuel than queued chunks, the loop ends on [queue.Empty]
    after it has appended every chunk, in order. *)
Lemma poll_loop_drains (q : list string) :
  forall (fuel : nat) (self : GameApp.t) (m : Z),
    EngineThread.from_engine (GameApp.engine self)
    = {| Pipe.maxsize := m; Pipe.queue := q |} ->
    (List.length q < fuel)%nat ->
    GameApp.poll_loop fuel self = Raise Empty (GameApp.moved m q self).
Proof.
  induction q as [|c q IH]; intros fuel self m Hp Hf;
    (destruct fuel as [|fuel]; [simpl in Hf; lia|]);
    destruct self as [e tr ib tm ml]; destruct e as [av pin pout st];
    unfold EngineThread.from_engine in Hp; simpl in Hp; subst pout.
  - reflexivity.
  - cbn [GameApp.poll_loop GameApp.engine EngineThread.from_engine
         EngineThread.stdout_pipe Pipe.get_nowait Pipe.queue Pipe.maxsize
         lift bind].
    rewrite (IH fuel _ m); [reflexivity | reflexivity | simpl in Hf; lia].
Qed.

Lemma poll_engine_drains (q : list string) (fuel : nat) (self : GameApp.t)
      (m : Z) :
  EngineThread.from_engine (GameApp.engine self)
  = {| Pipe.maxsize := m; Pipe.queue := q |} ->
  (List.length q < fuel)%nat ->
  GameApp._poll_engine POLL_MS fuel self
  = Return tt (GameApp.after POLL_MS GameApp.Poll_engine (GameApp.moved m q self)).
Proof.
  intros Hp Hf. unfold GameApp._poll_engine.
  rewrite (poll_loop_drains q fuel self m Hp Hf). reflexivity.
Qed.

End PollFacts.

(* ================================================================== *)
(** ** The relay is a FIFO of whole fragments *)
(* ================================================================== *)

(** C1.  Let the fragments [fs] be written, in that order, to a fresh relay
    of any bound.  A schedule of writes and reads that writes [fs] and in
    which no call waits for ever exists for every [fs]; when [fs] fits under
    the bound (or the relay is unbounded) the writes alone are such a
    schedule and leave exactly [fs] queued.  After any such schedule, with
    [out] the fragments already read, draining the relay by one blocking
    [readline] per queued fragment, by non-blocking [get_nowait] calls, or
    by the poll loop of the application yields fragments [rest] with
    [out ++ rest = fs]: every fragment comes out whole, once, in the order
    written, and the relay is left empty. *)
Theorem relay_fifo (maxsize : Z) (fs : list string) :
  (Pipe.writes (Pipe.alternate fs) = fs /\
   Pipe.run (Pipe.alternate fs) (Pipe.init maxsize)
   = Return fs (Pipe.init maxsize)) /\
  (maxsize <= 0 \/ len fs <= maxsize ->
   Pipe.writes (map Pipe.Write fs) = fs /\
   Pipe.run (map Pipe.Write fs) (Pipe.init maxsize)
   = Return [] {| Pipe.maxsize := maxsize; Pipe.queue := fs |}) /\
  (forall (ops : list Pipe.op) (out : list string) (p : Pipe.t),
      Pipe.writes ops = fs ->
      Pipe.run ops (Pipe.init maxsize) = Return out p ->
      exists rest : list string,
        out ++ rest = fs /\
        Pipe.readlines (List.length rest) p = Return rest (Pipe.init maxsize) /\
        (forall n : nat, (List.length rest <= n)%nat ->
           Pipe.run (repeat Pipe.GetNowait n) p
           = Return rest (Pipe.init maxsize)) /\
        (forall (POLL_MS : Z) (fuel : nat) (app : GameApp.t),
           EngineThread.from_engine (GameApp.engine app) = p ->
           (List.length rest < fuel)%nat ->
           GameApp._poll_engine POLL_MS fuel app
           = Return tt (GameApp.after POLL_MS GameApp.Poll_engine
                          (GameApp.moved maxsize rest app)))).
Proof.
  split; [apply alternate_runs|]. split.
  - intros Hm. split.
    + clear Hm. induction fs as [|f l IH]; simpl; [reflexivity | now rewrite IH].
    + unfold Pipe.init. rewrite write_all; [reflexivity|].
      unfold len in *; simpl; lia.
  - intros ops out p Hw Hr.
    apply run_fifo in Hr. destruct Hr as [Hm Hq]. simpl in Hm, Hq.
    destruct p as [m q]; simpl in *. subst m.
    exists q. split; [congruence|]. split; [apply readlines_drain|]. split.
    + intros n Hn. now apply get_nowait_drain.
    + intros POLL_MS fuel app Hp Hf. now apply poll_engine_drains.
Qed.

(** The theorem at the bound the application uses: the three writes alone,
    and a schedule that reads one fragment before the last write. *)
Lemma relay_fifo_witness :
  let fs := ["look"; "north"; "take lamp"] in
  let ops := [Pipe.Write "look"; Pipe.Write "north"; Pipe.Readline;
              Pipe.Write "take lamp"] in
  Pipe.run (map Pipe.Write fs) (Pipe.init 2048)
  = Return [] {| Pipe.maxsize := 2048; Pipe.queue := fs |} /\
  exists rest : list string,
    ["look"] ++ rest = fs /\
    Pipe.readlines (List.length rest)
      {| Pipe.maxsize := 2048; Pipe.queue := ["north"; "take lamp"] |}
    = Return rest (Pipe.init 2048).
Proof.
  intros fs ops. split.
  - refine (proj2 (proj1 (proj2 (relay_fifo 2048 fs)) _)).
    right. vm_compute. discriminate.
  - destruct (proj2 (proj2 (relay_fifo 2048 fs)) ops ["look"]
                {| Pipe.maxsize := 2048; Pipe.queue := ["north"; "take lamp"] |}
                eq_refl eq_refl) as [rest [H1 [H2 _]]].
    exists rest. split; assumption.
Defined.

(* ================================================================== *)
(** ** Lines handed to the engine *)
(* ================================================================== *)

Section StringFacts.

Lemma string_length_app (a b : string) :
  String.length (a ++ b)%string = (String.length a + String.length b)%nat.
Proof. induction a as [|x a IH]; simpl; [reflexivity | now rewrite IH]. Qed.

Lemma substring_all (s : string) : substring 0 (String.length s) s = s.
Proof. induction s as [|x s IH]; simpl; [reflexivity | now rewrite IH]. Qed.

Lemma substring_suffix (a b : string) :
  substring (String.length a) (String.length b) (a ++ b)%string = b.
Proof. induction a as [|x a IH]; simpl; [apply substring_all | exact IH]. Qed.

Lemma endswith_app (a b : string) : endswith (a ++ b)%string b = true.
Proof.
  unfold endswith. rewrite string_length_app.
  replace (String.length a + String.length b - String.length b)%nat
    with (String.length a) by lia.
  rewrite substring_suffix, String.eqb_refl, andb_true_r.
  apply Nat.leb_le; lia.
Qed.

End StringFacts.

(** C3, as the code has it.  [enqueue_line(text)] is one write to the
    inbound relay, of the fragment that is [text] itself when [text]
    already ends with a line terminator, and [text] followed by one
    terminator otherwise; on a relay that has room the fragment is queued
    behind those already there.  The fragment always ends with a
    terminator, and enqueueing the fragment again writes the same fragment
    (the normalization is idempotent); a [text] that already ends with
    several terminators keeps them all.  On a fresh engine,
    [enqueue_line("look")] and [enqueue_line("look" + LF)] followed by a
    blocking read both yield ["look" + LF] and leave the relay empty. *)
Theorem enqueue_line_fragment (text : string) (self : EngineThread.t) :
  let frag := if endswith text LF then text else (text ++ LF)%string in
  EngineThread.enqueue_line text self
  = lift (fun p => EngineThread.set_stdin_pipe p self)
         (Pipe.write frag (EngineThread.stdin_pipe self)) /\
  (Pipe.full (EngineThread.stdin_pipe self) = false ->
   EngineThread.enqueue_line text self
   = Return tt (EngineThread.set_stdin_pipe
                  {| Pipe.maxsize := Pipe.maxsize (EngineThread.stdin_pipe self);
                     Pipe.queue :=
                       Pipe.queue (EngineThread.stdin_pipe self) ++ [frag] |}
                  self)) /\
  endswith frag LF = true /\
  EngineThread.enqueue_line frag self = EngineThread.enqueue_line text self /\
  (forall argv : list string,
      EngineThread.enqueue_then_read "look" (EngineThread.init argv)
      = Return ("look" ++ LF)%string (EngineThread.init argv) /\
      EngineThread.enqueue_then_read ("look" ++ LF)%string
                                     (EngineThread.init argv)
      = Return ("look" ++ LF)%string (EngineThread.init argv)).
Proof.
  intros frag.
  assert (Hend : endswith frag LF = true).
  { subst frag. destruct (endswith text LF) eqn:E; [exact E | apply endswith_app]. }
  assert (Hline : (if negb (endswith text LF) then (text ++ LF)%string else text)
                  = frag).
  { subst frag. destruct (endswith text LF); reflexivity. }
  assert (Hw : EngineThread.enqueue_line text self
               = lift (fun p => EngineThread.set_stdin_pipe p self)
                      (Pipe.write frag (EngineThread.stdin_pipe self))).
  { unfold EngineThread.enqueue_line. rewrite Hline. reflexivity. }
  split; [exact Hw|]. split; [|split; [exact Hend|split]].
  - intros Hfull. rewrite Hw.
    unfold Pipe.write, Pipe.put. rewrite Hfull. reflexivity.
  - rewrite Hw. unfold EngineThread.enqueue_line. rewrite Hend. reflexivity.
  - intros argv. split; reflexivity.
Qed.

Lemma enqueue_line_fragment_witness :
  EngineThread.enqueue_line "open mailbox" (EngineThread.init ["story.z5"])
  = Return tt (EngineThread.set_stdin_pipe
                 {| Pipe.maxsize := 2048;
                    Pipe.queue := [("open mailbox" ++ LF)%string] |}
                 (EngineThread.init ["story.z5"])).
Proof.
  exact (proj1 (proj2 (enqueue_line_fragment "open mailbox"
                         (EngineThread.init ["story.z5"]))) eq_refl).
Defined.

(** C3 as stated fails on a text with two trailing line terminators: the
    fragment that reaches the engine still ends with both. *)
Lemma enqueue_line_two_terminators :
  let text := ("look" ++ LF ++ LF)%string in
  EngineThread.enqueue_then_read text (EngineThread.init ["story.z5"])
  = Return text (EngineThread.init ["story.z5"]) /\
  ends_with_one_LF text = false.
Proof. split; reflexivity. Qed.

(* ================================================================== *)
(** ** The input box *)
(* ================================================================== *)

Section InputBoxFacts.

Context {W : Type}.
Implicit Type self : InputBox.t W.

Lemma truthy_str_spec (s : string) : truthy_str s = true <-> s <> EmptyString.
Proof. destruct s; simpl; split; congruence. Qed.

Lemma truthy_list_spec {A} (l : list A) : truthy_list l = true <-> l <> [].
Proof. destruct l; simpl; split; congruence. Qed.

(** The input box showing [s], with cursor [i]. *)
Lemma show_history_spec self :
  InputBox.wf self ->
  InputBox._show_history self
  = Return tt (InputBox.set_tk
                 {| TkText.buffer :=
                      nth (Z.to_nat (InputBox.history_idx self))
                          (InputBox.history self) EmptyString;
                    TkText.state := TkText.NORMAL |} self).
Proof.
  intros [Hst [Hlo Hhi]].
  destruct self as [[buf st] cb h i]; simpl in *; subst st.
  unfold InputBox._show_history, TkText.delete_all, TkText.insert_end,
    getitem, InputBox.set_tk; simpl.
  destruct (i <? len h) eqn:E.
  - apply Z.ltb_lt in E.
    assert (E0 : (0 <=? i) = true) by (apply Z.leb_le; lia).
    rewrite E0; simpl.
    assert (Hn : (Z.to_nat i < List.length h)%nat) by (unfold len in E; lia).
    rewrite (nth_error_nth' h EmptyString Hn). reflexivity.
  - apply Z.ltb_ge in E.
    rewrite nth_overflow by (unfold len in *; lia). reflexivity.
Qed.

Lemma hist_prev_spec self :
  InputBox.wf self -> InputBox.history self <> [] ->
  let i := Z.max 0 (InputBox.history_idx self - 1) in
  InputBox._hist_prev self
  = Return InputBox.break
      (InputBox.set_tk
         {| TkText.buffer :=
              nth (Z.to_nat i) (InputBox.history self) EmptyString;
            TkText.state := TkText.NORMAL |}
         (InputBox.set_history_idx i self)).
Proof.
  intros Hwf Hne i. unfold InputBox._hist_prev.
  apply truthy_list_spec in Hne. rewrite Hne.
  rewrite show_history_spec; [reflexivity|].
  destruct Hwf as [Hst Hi]. split; simpl; [exact Hst | lia].
Qed.

Lemma hist_next_spec self :
  InputBox.wf self -> InputBox.history self <> [] ->
  let i := Z.min (len (InputBox.history self))
                 (InputBox.history_idx self + 1) in
  InputBox._hist_next self
  = Return InputBox.break
      (InputBox.set_tk
         {| TkText.buffer :=
              nth (Z.to_nat i) (InputBox.history self) EmptyString;
            TkText.state := TkText.NORMAL |}
         (InputBox.set_history_idx i self)).
Proof.
  intros Hwf Hne i. unfold InputBox._hist_next.
  apply truthy_list_spec in Hne. rewrite Hne.
  rewrite show_history_spec; [reflexivity|].
  destruct Hwf as [Hst Hi]. split; simpl; [exact Hst | lia].
Qed.

(** The freshly created input box is well formed. *)
Lemma init_wf (cb : string -> W -> outcome W unit) :
  InputBox.wf (InputBox.init cb).
Proof. split; simpl; [reflexivity | unfold len; simpl; lia]. Qed.

(** Every key handler that returns leaves the box well formed, so every
    state reached from the fresh box by typing and key presses is. *)
Lemma press_wf (k : InputBox.key) self (w : W) (r : string) self' (w' : W) :
  InputBox.wf self ->
  InputBox.press k self w = Return r (self', w') ->
  InputBox.wf self'.
Proof.
  intros Hwf. destruct k; simpl.
  - destruct Hwf as [Hst Hi].
    destruct self as [[buf st] cb h i]; simpl in *; subst st.
    unfold InputBox._submit, InputBox._get_current_line, TkText.get_all.
    simpl. destruct (truthy_str (strip buf)).
    + destruct (cb (strip buf) w) as [u w1| | |]; simpl; try discriminate.
      intros H; inversion H; subst. split; simpl; [reflexivity|].
      unfold len; lia.
    + intros H; inversion H; subst. split; simpl; [reflexivity | exact Hi].
  - destruct (InputBox.history self) as [|x h] eqn:Hh.
    + unfold InputBox._hist_prev. rewrite Hh. simpl.
      intros H; inversion H; subst; exact Hwf.
    + rewrite hist_prev_spec by (try rewrite Hh; auto; discriminate).
      simpl. intros H; inversion H; subst.
      destruct Hwf as [Hst Hi]. split; simpl; [reflexivity | lia].
  - destruct (InputBox.history self) as [|x h] eqn:Hh.
    + unfold InputBox._hist_next. rewrite Hh. simpl.
      intros H; inversion H; subst; exact Hwf.
    + rewrite hist_next_spec by (try rewrite Hh; auto; discriminate).
      simpl. intros H; inversion H; subst.
      destruct Hwf as [Hst Hi]. split; simpl; [reflexivity | lia].
Qed.

End InputBoxFacts.

(** C4.  Submit reads the input surface and strips it.  When the stripped
    text is not empty, the surface is cleared, the text is appended to the
    history, the cursor becomes the new length of the history (one past the
    last entry), and the submission callback runs once, on exactly the
    stripped text; the handler then returns ["break"].  When the stripped
    text is empty, the surface is cleared, history and cursor stay as they
    were, and the callback is not run: the state it acts on is returned
    untouched, whatever the callback is. *)
Theorem submit_spec {W : Type} (self : InputBox.t W) (w : W) :
  TkText.state (InputBox.tk self) = TkText.NORMAL ->
  let text := strip (InputBox.shown self) in
  let cleared := {| TkText.buffer := EmptyString;
                    TkText.state := TkText.NORMAL |} in
  (text <> EmptyString ->
   let self' := {| InputBox.tk := cleared;
                   InputBox.on_submit := InputBox.on_submit self;
                   InputBox.history := InputBox.history self ++ [text];
                   InputBox.history_idx :=
                     len (InputBox.history self ++ [text]) |} in
   InputBox.history_idx self' = len (InputBox.history self) + 1 /\
   InputBox._submit self w
   = bind (lift (fun w' => (self', w')) (InputBox.on_submit self text w))
          (fun _ s => Return InputBox.break s) /\
   (forall w' : W,
       InputBox.on_submit self text w = Return tt w' ->
       InputBox._submit self w = Return InputBox.break (self', w'))) /\
  (text = EmptyString ->
   InputBox._submit self w
   = Return InputBox.break
       ({| InputBox.tk := cleared;
           InputBox.on_submit := InputBox.on_submit self;
           InputBox.history := InputBox.history self;
           InputBox.history_idx := InputBox.history_idx self |}, w)).
Proof.
  intros Hst text cleared.
  destruct self as [[buf st] cb h i]; simpl in Hst; subst st.
  split.
  - intros Hne self'.
    assert (Hsub : InputBox._submit
                     {| InputBox.tk := {| TkText.buffer := buf;
                                          TkText.state := TkText.NORMAL |};
                        InputBox.on_submit := cb; InputBox.history := h;
                        InputBox.history_idx := i |} w
                   = bind (lift (fun w' => (self', w')) (cb text w))
                          (fun _ s => Return InputBox.break s)).
    { apply truthy_str_spec in Hne. subst self'.
      unfold text, InputBox.shown in *. unfold InputBox._submit.
      rewrite Hne. reflexivity. }
    split; [|split].
    + simpl. unfold len. rewrite length_app. simpl. lia.
    + exact Hsub.
    + intros w' Hcb. rewrite Hsub. simpl in Hcb. rewrite Hcb. reflexivity.
  - intros He. unfold text, InputBox.shown in He. unfold InputBox._submit.
    rewrite He. reflexivity.
Qed.

(** The theorem on a box whose callback logs its argument: a padded
    command is logged once, stripped; blanks alone are only cleared. *)
Lemma submit_spec_witness :
  let log (text : string) (w : list string) := Return tt (w ++ [text]) in
  let box (typed : string) (h : list string) (i : Z) :=
    {| InputBox.tk := {| TkText.buffer := typed;
                         TkText.state := TkText.NORMAL |};
       InputBox.on_submit := log;
       InputBox.history := h;
       InputBox.history_idx := i |} in
  InputBox._submit (box "  take lamp " ["north"] 0) []
  = Return InputBox.break
      (box EmptyString ["north"; "take lamp"] 2, ["take lamp"]) /\
  InputBox._submit (box "   " ["north"] 0) []
  = Return InputBox.break (box EmptyString ["north"] 0, []).
Proof.
  intros log box. split.
  - refine (proj2 (proj2 (proj1 (submit_spec (box "  take lamp " ["north"] 0)
                                             [] eq_refl) _))
                  ["take lamp"] eq_refl).
    vm_compute. discriminate.
  - exact (proj2 (submit_spec (box "   " ["north"] 0) [] eq_refl) eq_refl).
Defined.

(** C5.  In a well-formed input box, History-previous moves the cursor to
    [max(0, cursor - 1)] and History-next to [min(len(history),
    cursor + 1)], so the cursor stays in [0 .. len(history)]; neither key
    changes the history.  When the history is not empty the surface then
    shows the entry at the new cursor, and nothing when the cursor is one
    past the last entry.  With history ["north"; "take lamp"] and the
    cursor at 2: Up shows "take lamp", Up shows "north", a third Up stays
    on "north", Down shows "take lamp", and Down again shows nothing at the
    past-end position. *)
Theorem history_navigation {W : Type} (self : InputBox.t W) :
  InputBox.wf self ->
  (exists up down : InputBox.t W,
      InputBox._hist_prev self = Return InputBox.break up /\
      InputBox._hist_next self = Return InputBox.break down /\
      InputBox.history_idx up = Z.max 0 (InputBox.history_idx self - 1) /\
      InputBox.history_idx down
      = Z.min (len (InputBox.history self)) (InputBox.history_idx self + 1) /\
      InputBox.history up = InputBox.history self /\
      InputBox.history down = InputBox.history self /\
      InputBox.wf up /\ InputBox.wf down /\
      (InputBox.history self <> [] ->
       InputBox.shown up
       = nth (Z.to_nat (InputBox.history_idx up)) (InputBox.history self)
             EmptyString /\
       InputBox.shown down
       = nth (Z.to_nat (InputBox.history_idx down)) (InputBox.history self)
             EmptyString)) /\
  (InputBox.history self = ["north"; "take lamp"] ->
   let at_ (i : Z) (s : string) :=
     InputBox.set_tk {| TkText.buffer := s; TkText.state := TkText.NORMAL |}
                     (InputBox.set_history_idx i self) in
   InputBox.history_idx self = 2 ->
   InputBox._hist_prev self = Return InputBox.break (at_ 1 "take lamp") /\
   InputBox._hist_prev (at_ 1 "take lamp")
   = Return InputBox.break (at_ 0 "north") /\
   InputBox._hist_prev (at_ 0 "north") = Return InputBox.break (at_ 0 "north") /\
   InputBox._hist_next (at_ 0 "north")
   = Return InputBox.break (at_ 1 "take lamp") /\
   InputBox._hist_next (at_ 1 "take lamp")
   = Return InputBox.break (at_ 2 EmptyString)).
Proof.
  intros Hwf. split.
  - destruct (InputBox.history self) as [|x h] eqn:Hh.
    + (* empty history: both handlers return at once *)
      exists self, self.
      unfold InputBox._hist_prev, InputBox._hist_next. rewrite Hh. simpl.
      destruct Hwf as [Hst Hi]. rewrite Hh in Hi. unfold len in *. simpl in *.
      repeat split; try assumption; try lia; try congruence;
        try (rewrite Hh; unfold len; simpl; lia).
    + assert (Hne : InputBox.history self <> []) by (rewrite Hh; discriminate).
      pose proof (hist_prev_spec self Hwf Hne) as Hp.
      pose proof (hist_next_spec self Hwf Hne) as Hn.
      cbv zeta in Hp, Hn. rewrite Hh in Hp, Hn.
      eexists; eexists. split; [exact Hp|]. split; [exact Hn|].
      destruct Hwf as [Hst Hi]. rewrite Hh in Hi.
      unfold InputBox.wf, InputBox.shown, InputBox._get_current_line. simpl.
      rewrite Hh.
      repeat split; try reflexivity; try lia.
  - intros Hh at_ Hi.
    destruct self as [[buf st] cb h i]. destruct Hwf as [Hst _].
    simpl in *. subst. repeat split.
Qed.

Lemma history_navigation_witness :
  let noop (text : string) (w : unit) := Return tt w in
  let box (typed : string) (i : Z) :=
    {| InputBox.tk := {| TkText.buffer := typed;
                         TkText.state := TkText.NORMAL |};
       InputBox.on_submit := noop;
       InputBox.history := ["north"; "take lamp"];
       InputBox.history_idx := i |} in
  InputBox._hist_prev (box "dro" 2)
  = Return InputBox.break (box "take lamp" 1) /\
  exists down : InputBox.t unit,
    InputBox._hist_next (box "north" 0) = Return InputBox.break down /\
    InputBox.shown down = "take lamp" /\ InputBox.wf down.
Proof.
  intros noop box.
  assert (Hwf : forall typed i, 0 <= i <= 2 -> InputBox.wf (box typed i))
    by (intros typed i Hi; split; [reflexivity | exact Hi]).
  split.
  - exact (proj1 (proj2 (history_navigation (box "dro" 2)
                           (Hwf "dro" 2 ltac:(lia))) eq_refl eq_refl)).
  - destruct (proj1 (history_navigation (box "north" 0)
                      (Hwf "north" 0 ltac:(lia))))
      as [up [down [_ [Hn [_ [Hd [_ [_ [_ [Hw Hs]]]]]]]]]].
    exists down. split; [exact Hn|]. split; [|exact Hw].
    destruct (Hs ltac:(discriminate)) as [_ Hsd].
    rewrite Hsd, Hd. reflexivity.
Defined.

(** C9.  With an empty history, History-previous and History-next return
    ["break"] and leave the input box exactly as it was: cursor, history
    and the text typed so far. *)
Theorem empty_history_keys {W : Type} (self : InputBox.t W) :
  InputBox.history self = [] ->
  InputBox._hist_prev self = Return InputBox.break self /\
  InputBox._hist_next self = Return InputBox.break self /\
  (forall w : W,
      InputBox.press InputBox.Key_Up self w = Return InputBox.break (self, w) /\
      InputBox.press InputBox.Key_Down self w
      = Return InputBox.break (self, w)).
Proof.
  intros Hh.
  unfold InputBox.press, InputBox._hist_prev, InputBox._hist_next.
  rewrite Hh. simpl. repeat split.
Qed.

Lemma empty_history_keys_witness :
  let noop (text : string) (w : unit) := Return tt w in
  let box := InputBox.set_tk {| TkText.buffer := "open mail";
                                TkText.state := TkText.NORMAL |}
                             (InputBox.init noop) in
  InputBox._hist_prev box = Return InputBox.break box.
Proof.
  intros noop box. exact (proj1 (empty_history_keys box eq_refl)).
Defined.

(** C10.  In a well-formed input box with a non-empty history, each
    History-previous or History-next press replaces whatever the surface
    holds with the entry at the resulting cursor, or with nothing when the
    resulting cursor is one past the last entry.  The result does not
    depend on the text that was typed, and this also holds when the cursor
    is already at a boundary and stays there. *)
Theorem navigation_discards_typed_text {W : Type} (self : InputBox.t W) :
  InputBox.wf self ->
  InputBox.history self <> [] ->
  let h := InputBox.history self in
  let up := Z.max 0 (InputBox.history_idx self - 1) in
  let down := Z.min (len h) (InputBox.history_idx self + 1) in
  let showing (i : Z) :=
    InputBox.set_tk {| TkText.buffer := nth (Z.to_nat i) h EmptyString;
                       TkText.state := TkText.NORMAL |}
                    (InputBox.set_history_idx i self) in
  InputBox._hist_prev self = Return InputBox.break (showing up) /\
  InputBox._hist_next self = Return InputBox.break (showing down) /\
  (forall typed : string,
      let edited :=
        InputBox.set_tk {| TkText.buffer := typed;
                           TkText.state := TkText.NORMAL |} self in
      InputBox._hist_prev edited = InputBox._hist_prev self /\
      InputBox._hist_next edited = InputBox._hist_next self) /\
  (InputBox.history_idx self = 0 -> up = 0) /\
  (InputBox.history_idx self = len h ->
   down = len h /\ InputBox.shown (showing down) = EmptyString).
Proof.
  intros Hwf Hne h up down showing.
  pose proof (hist_prev_spec self Hwf Hne) as Hp.
  pose proof (hist_next_spec self Hwf Hne) as Hn.
  split; [exact Hp|]. split; [exact Hn|]. split; [|split].
  - intros typed edited.
    assert (Hwf' : InputBox.wf edited).
    { destruct Hwf as [_ Hi]. split; [reflexivity | exact Hi]. }
    rewrite Hp, Hn.
    rewrite (hist_prev_spec edited Hwf' Hne), (hist_next_spec edited Hwf' Hne).
    split; reflexivity.
  - intros H0. subst up. rewrite H0. reflexivity.
  - intros Hlen. assert (Hd : down = len h) by (subst down; lia).
    split; [exact Hd|].
    unfold InputBox.shown, InputBox._get_current_line, showing; simpl.
    rewrite Hd. apply nth_overflow. unfold len. lia.
Qed.

Lemma navigation_discards_typed_text_witness :
  let noop (text : string) (w : unit) := Return tt w in
  let box := {| InputBox.tk := {| TkText.buffer := "half typed";
                                  TkText.state := TkText.NORMAL |};
                InputBox.on_submit := noop;
                InputBox.history := ["north"; "take lamp"];
                InputBox.history_idx := 0 |} in
  InputBox._hist_prev box
  = Return InputBox.break
      {| InputBox.tk := {| TkText.buffer := "north";
                           TkText.state := TkText.NORMAL |};
         InputBox.on_submit := noop;
         InputBox.history := ["north"; "take lamp"];
         InputBox.history_idx := 0 |}.
Proof.
  intros noop box.
  assert (Hwf : InputBox.wf box)
    by (split; [reflexivity | vm_compute; split; discriminate]).
  assert (Hne : InputBox.history box <> []) by discriminate.
  exact (proj1 (navigation_discards_typed_text box Hwf Hne)).
Defined.

(* ================================================================== *)
(** ** The poll tick, the transcript and the entry point *)
(* ================================================================== *)

(** C6.  On an empty outbound relay the non-blocking read does not wait: it
    raises [queue.Empty] at once and leaves the relay as it was.  The poll
    tick catches it: [_poll_engine] returns normally for any positive loop
    bound, the transcript, the relays and the input box are unchanged, and
    the only effect is that the next tick is scheduled [POLL_MS] later. *)
Theorem poll_on_empty_relay (POLL_MS : Z) (fuel : nat) (self : GameApp.t) :
  Pipe.queue (EngineThread.from_engine (GameApp.engine self)) = [] ->
  (0 < fuel)%nat ->
  Pipe.get_nowait (EngineThread.from_engine (GameApp.engine self))
  = Raise Empty (EngineThread.from_engine (GameApp.engine self)) /\
  GameApp._poll_engine POLL_MS fuel self
  = Return tt (GameApp.after POLL_MS GameApp.Poll_engine self) /\
  GameApp.transcript (GameApp.after POLL_MS GameApp.Poll_engine self)
  = GameApp.transcript self /\
  GameApp.timers (GameApp.after POLL_MS GameApp.Poll_engine self)
  = GameApp.timers self ++ [(POLL_MS, GameApp.Poll_engine)].
Proof.
  intros Hq Hf.
  destruct self as [e tr ib tm ml]; destruct e as [av pin [m q] st].
  unfold EngineThread.from_engine in *; simpl in Hq; subst q.
  split; [reflexivity|]. split; [|split; reflexivity].
  rewrite (poll_engine_drains POLL_MS [] fuel _ m); [reflexivity|reflexivity|].
  simpl; lia.
Qed.

Lemma poll_on_empty_relay_witness :
  let app := {| GameApp.engine :=
                  {| EngineThread.argv := ["story.z5"];
                     EngineThread.stdin_pipe := Pipe.init 2048;
                     EngineThread.stdout_pipe := Pipe.init 2048;
                     EngineThread.started := true |};
                GameApp.transcript := Transcript.init;
                GameApp.input_box := InputBox.init GameApp._on_command;
                GameApp.timers := [(50, GameApp.Poll_engine)];
                GameApp.in_mainloop := false |} in
  GameApp.init 50 "story.z5" = Return tt app /\
  GameApp._poll_engine 50 1 app
  = Return tt (GameApp.after 50 GameApp.Poll_engine app).
Proof.
  intros app. split; [reflexivity|].
  exact (proj1 (proj2 (poll_on_empty_relay 50 1 app eq_refl
                         (Nat.lt_0_succ 0)))).
Defined.

(** C7.  [append(text)] leaves the transcript holding its previous text
    followed by [text], whatever the widget held and whatever its state
    was: the previous text is the prefix of the new one, unaltered, and the
    widget is read-only again afterwards. *)
Theorem transcript_append (text : string) (self : Transcript.t) :
  TkText.buffer (Transcript.append text self)
  = (TkText.buffer self ++ text)%string /\
  substring 0 (String.length (TkText.buffer self))
            (TkText.buffer (Transcript.append text self))
  = TkText.buffer self /\
  substring (String.length (TkText.buffer self)) (String.length text)
            (TkText.buffer (Transcript.append text self))
  = text /\
  TkText.state (Transcript.append text self) = TkText.DISABLED.
Proof.
  rewrite append_buffer. repeat split.
  - generalize (TkText.buffer self) as b.
    induction b as [|c b IH]; simpl; [now destruct text | now rewrite IH].
  - apply substring_suffix.
Qed.

(** C8.  Started with fewer than two entries in [sys.argv], [main] writes
    the usage line to standard output and raises [SystemExit(1)]: the
    process ends with status 1 and no application object exists.  Started
    with the story file argument, [main] writes nothing, builds the
    application around a started engine thread that was given the story
    path, schedules the first poll tick and enters the Tk main loop. *)
Theorem main_usage (POLL_MS : Z) (Path : string -> string)
        (argv : list string) :
  (len argv < 2 ->
   Process.main POLL_MS Path (Process.init argv)
   = Raise (SystemExit 1)
           {| Process.sys := Sys.init argv;
              Process.console := [Process.usage; LF];
              Process.gui := None |} /\
   Process.exit_status (Process.main POLL_MS Path (Process.init argv))
   = Some 1) /\
  (2 <= len argv ->
   exists (story : string) (app : GameApp.t),
     nth_error argv 1 = Some story /\
     Process.main POLL_MS Path (Process.init argv)
     = Return tt {| Process.sys := Sys.init argv;
                    Process.console := [];
                    Process.gui := Some app |} /\
     GameApp.in_mainloop app = true /\
     GameApp.timers app = [(POLL_MS, GameApp.Poll_engine)] /\
     GameApp.engine app
     = {| EngineThread.argv := [Path story];
          EngineThread.stdin_pipe := Pipe.init 2048;
          EngineThread.stdout_pipe := Pipe.init 2048;
          EngineThread.started := true |}).
Proof.
  split; intros Hlen.
  - unfold Process.main; simpl.
    apply Z.ltb_lt in Hlen. rewrite Hlen. split; reflexivity.
  - destruct argv as [|prog [|story rest]];
      try (unfold len in Hlen; simpl in Hlen; lia).
    exists story. eexists. split; [reflexivity|].
    unfold Process.main; simpl.
    assert (E : (len (prog :: story :: rest) <? 2) = false)
      by (apply Z.ltb_ge; exact Hlen).
    rewrite E. unfold getitem.
    assert (E1 : (0 <=? 1) && (1 <? len (prog :: story :: rest)) = true).
    { simpl. apply Z.ltb_lt. lia. }
    rewrite E1. simpl. repeat split.
Qed.

Lemma main_usage_witness :
  Process.exit_status
    (Process.main 50 (fun s => s) (Process.init ["gui.app"])) = Some 1 /\
  exists app : GameApp.t,
    Process.main 50 (fun s => s) (Process.init ["gui.app"; "story.z5"])
    = Return tt {| Process.sys := Sys.init ["gui.app"; "story.z5"];
                   Process.console := [];
                   Process.gui := Some app |} /\
    GameApp.in_mainloop app = true.
Proof.
  split.
  - refine (proj2 (proj1 (main_usage 50 (fun s => s) ["gui.app"]) _)).
    vm_compute. reflexivity.
  - destruct (proj2 (main_usage 50 (fun s => s) ["gui.app"; "story.z5"]))
      as [story [app [_ [Hm [Hl _]]]]].
    + vm_compute. discriminate.
    + exists app. split; assumption.
Defined.

(* ================================================================== *)
(** ** The standard streams seen from the other threads *)
(* ================================================================== *)

(** C2, evaluated on the code.  [run] rebinds the attributes of the one
    [sys] module of the process: when the engine's entry point is invoked,
    the interface thread reads the two relays from [sys.stdin] and
    [sys.stdout], not the streams it had before, and the bindings are not
    restored when the entry point returns.  A [print] on the interface
    thread after the worker ran therefore lands in the outbound relay and
    not on the console. *)
Theorem run_rebinds_stdio_of_every_thread
        (xyppy_main : EngineThread.engine) (self : EngineThread.t)
        (argv0 : list string) (POLL_MS : Z) (Path : string -> string)
        (story text : string) :
  let before := Sys.init argv0 in
  let during := {| Sys.argv := "xyppy" :: EngineThread.argv self;
                   Sys.stdin := Sys.StdinPipe;
                   Sys.stdout := Sys.StdoutPipe |} in
  EngineThread.run xyppy_main (before, self) = xyppy_main (during, self) /\
  Sys.stdio_seen_by Sys.MainThread before
  = (Sys.Console_stdin, Sys.Console_stdout) /\
  Sys.stdio_seen_by Sys.MainThread during = (Sys.StdinPipe, Sys.StdoutPipe) /\
  EngineThread.run Process.idle_engine (before, self) = Return tt (during, self) /\
  exists proc : Process.t,
    bind (Process.main POLL_MS Path (Process.init ["gui.app"; story]))
         (fun _ proc =>
          bind (Process.run_worker Process.idle_engine proc)
               (fun _ proc => Process.print text proc))
    = Return tt proc /\
    Process.console proc = [] /\
    option_map (fun app => Pipe.queue (EngineThread.from_engine
                                         (GameApp.engine app)))
               (Process.gui proc)
    = Some [text; LF].
Proof.
  intros before during. repeat split.
  eexists. split; [reflexivity|]. split; reflexivity.
Qed.

(* ================================================================== *)
(** ** Further properties of the relay, the transcript and the poll tick *)
(* ================================================================== *)

Lemma step_bound (o : Pipe.op) (p p' : Pipe.t) (out : list string) :
  0 < Pipe.maxsize p -> Pipe.qsize p <= Pipe.maxsize p ->
  Pipe.step o p = Return out p' ->
  Pipe.maxsize p' = Pipe.maxsize p /\ Pipe.qsize p' <= Pipe.maxsize p.
Proof.
  intros Hm Hq. destruct p as [m q]. unfold Pipe.qsize, len in *. simpl in *.
  destruct o as [s | | ]; unfold Pipe.step, Pipe.write, Pipe.put,
    Pipe.readline, Pipe.get, Pipe.get_nowait, Pipe.full, Pipe.qsize, len;
    simpl.
  - destruct (0 <? m) eqn:E0; [|apply Z.ltb_ge in E0; lia]. simpl.
    destruct (m <=? Z.of_nat (List.length q)) eqn:E1; simpl;
      intros H; inversion H; subst; simpl.
    apply Z.leb_gt in E1. rewrite length_app. simpl. lia.
  - destruct q as [|x q]; simpl; intros H; inversion H; subst; simpl in *; lia.
  - destruct q as [|x q]; simpl; intros H; inversion H; subst; simpl in *; lia.
Qed.

(** X1.  A relay with a positive bound never holds more fragments than the
    bound, whatever the schedule of writes and reads; a write that finds it
    full waits and leaves the queue as it is, so nothing is dropped or
    overwritten. *)
Theorem relay_never_exceeds_bound (ops : list Pipe.op) :
  forall (p p' : Pipe.t) (out : list string),
    0 < Pipe.maxsize p -> Pipe.qsize p <= Pipe.maxsize p ->
    Pipe.run ops p = Return out p' ->
    Pipe.maxsize p' = Pipe.maxsize p /\
    Pipe.qsize p' <= Pipe.maxsize p /\
    (forall s : string,
        Pipe.qsize p' = Pipe.maxsize p -> Pipe.write s p' = Blocked p').
Proof.
  induction ops as [|o ops IH]; intros p p' out Hm Hq; simpl.
  - intros H; inversion H; subst. split; [reflexivity|]. split; [exact Hq|].
    intros s Hfull. unfold Pipe.write, Pipe.put, Pipe.full.
    rewrite Hfull. replace (0 <? Pipe.maxsize p') with true
      by (symmetry; apply Z.ltb_lt; exact Hm).
    rewrite Z.leb_refl. reflexivity.
  - destruct (Pipe.step o p) as [o1 p1| | |] eqn:S1; simpl; try discriminate.
    destruct (Pipe.run ops p1) as [o2 p2| | |] eqn:R2; simpl; try discriminate.
    intros H; inversion H; subst; clear H.
    destruct (step_bound o p p1 o1 Hm Hq S1) as [M1 Q1].
    destruct (IH p1 p' o2) as [M2 [Q2 B2]]; try (rewrite ?M1; assumption).
    rewrite M1 in *. auto.
Qed.

Lemma relay_never_exceeds_bound_witness :
  let p := {| Pipe.maxsize := 2; Pipe.queue := ["a"; "b"] |} in
  Pipe.run [Pipe.Write "a"; Pipe.Write "x"; Pipe.Readline; Pipe.Write "b"]
           (Pipe.init 2)
  = Return ["a"] {| Pipe.maxsize := 2; Pipe.queue := ["x"; "b"] |} /\
  Pipe.write "c" {| Pipe.maxsize := 2; Pipe.queue := ["x"; "b"] |}
  = Blocked {| Pipe.maxsize := 2; Pipe.queue := ["x"; "b"] |}.
Proof.
  intros p. split; [reflexivity|].
  refine (proj2 (proj2 (relay_never_exceeds_bound
            [Pipe.Write "a"; Pipe.Write "x"; Pipe.Readline; Pipe.Write "b"]
            (Pipe.init 2) {| Pipe.maxsize := 2; Pipe.queue := ["x"; "b"] |}
            ["a"] _ _ eq_refl)) "c" eq_refl).
  - vm_compute. reflexivity.
  - vm_compute. discriminate.
Defined.

(** X2.  Two appends in a row leave the transcript exactly as one append of the
    two texts joined: the places where the engine's output was cut into
    chunks cannot be seen in the transcript.  Appending the empty text
    changes nothing in a transcript that is read-only. *)
Theorem transcript_append_joins (a b : string) (self : Transcript.t) :
  Transcript.append b (Transcript.append a self)
  = Transcript.append (a ++ b)%string self /\
  (TkText.state self = TkText.DISABLED ->
   Transcript.append EmptyString self = self).
Proof.
  destruct self as [buf st].
  unfold Transcript.append, TkText.configure_state, TkText.insert_end,
    TkText.see_end; cbn [TkText.buffer TkText.state]. split.
  - f_equal. apply string_app_assoc.
  - intros ->. f_equal. apply string_app_nil_r.
Qed.

Lemma transcript_append_joins_witness :
  Transcript.append EmptyString (Transcript.append "West of House" Transcript.init)
  = Transcript.append "West of House" Transcript.init.
Proof.
  exact (proj2 (transcript_append_joins EmptyString EmptyString
                  (Transcript.append "West of House" Transcript.init))
               eq_refl).
Defined.

(** X3.  The transcript is read-only whenever no [append] is running: in the
    widget as created and in the widget any [append] returns, the Tk edit
    operations leave the text as it is. *)
Theorem transcript_read_only (texts : list string) (s : string) :
  let w := fold_left (fun w c => Transcript.append c w) texts Transcript.init in
  TkText.state w = TkText.DISABLED /\
  TkText.insert_end s w = w /\
  TkText.delete_all w = w.
Proof.
  intros w.
  assert (H : TkText.state w = TkText.DISABLED).
  { subst w. generalize Transcript.init, (eq_refl : TkText.state Transcript.init = TkText.DISABLED).
    induction texts as [|c texts IH]; intros w0 H0; simpl; [exact H0|].
    apply IH. reflexivity. }
  unfold TkText.insert_end, TkText.delete_all. rewrite H. auto.
Qed.

(** X4.  A poll tick with a loop bound above the number of queued chunks
    returns normally, whatever the outbound relay holds: the transcript
    gains the chunks joined in the order they were written, after its
    previous text; the outbound relay is empty and keeps its bound; the
    inbound relay, the engine's arguments and the input box are untouched;
    and one call [after(POLL_MS, _poll_engine)] is registered. *)
Theorem poll_tick (POLL_MS : Z) (fuel : nat) (self : GameApp.t) :
  let out := EngineThread.from_engine (GameApp.engine self) in
  (List.length (Pipe.queue out) < fuel)%nat ->
  exists self' : GameApp.t,
    GameApp._poll_engine POLL_MS fuel self = Return tt self' /\
    TkText.buffer (GameApp.transcript self')
    = (TkText.buffer (GameApp.transcript self)
       ++ String.concat "" (Pipe.queue out))%string /\
    EngineThread.from_engine (GameApp.engine self')
    = Pipe.init (Pipe.maxsize out) /\
    EngineThread.to_engine (GameApp.engine self')
    = EngineThread.to_engine (GameApp.engine self) /\
    EngineThread.argv (GameApp.engine self')
    = EngineThread.argv (GameApp.engine self) /\
    GameApp.input_box self' = GameApp.input_box self /\
    GameApp.timers self'
    = GameApp.timers self ++ [(POLL_MS, GameApp.Poll_engine)].
Proof.
  intros out Hf.
  destruct (EngineThread.from_engine (GameApp.engine self)) as [m q] eqn:Hp.
  subst out. simpl in Hf.
  eexists. split; [exact (poll_engine_drains POLL_MS q fuel self m Hp Hf)|].
  simpl. rewrite fold_append_buffer. repeat split.
Qed.

Lemma poll_tick_witness :
  let app (q : list string) (text : string) :=
    {| GameApp.engine :=
         {| EngineThread.argv := ["story.z5"];
            EngineThread.stdin_pipe := Pipe.init 2048;
            EngineThread.stdout_pipe :=
              {| Pipe.maxsize := 2048; Pipe.queue := q |};
            EngineThread.started := true |};
       GameApp.transcript :=
         {| TkText.buffer := text; TkText.state := TkText.DISABLED |};
       GameApp.input_box := InputBox.init GameApp._on_command;
       GameApp.timers := [];
       GameApp.in_mainloop := true |} in
  exists self' : GameApp.t,
    GameApp._poll_engine 50 3 (app ["West of "; "House"] ">look ")
    = Return tt self' /\
    TkText.buffer (GameApp.transcript self') = ">look West of House".
Proof.
  intros app.
  destruct (poll_tick 50 3 (app ["West of "; "House"] ">look "))
    as [self' [Hr [Hb _]]].
  - vm_compute. reflexivity.
  - exists self'. split; [exact Hr | exact Hb].
Defined.

(* ================================================================== *)
(** ** Commands on their way from the input box to the engine *)
(* ================================================================== *)

Section SuffixFacts.

Lemma substring_split (s : string) :
  forall k : nat, (k <= String.length s)%nat ->
    s = (substring 0 k s ++ substring k (String.length s - k) s)%string.
Proof.
  induction s as [|c s IH]; intros k Hk; simpl in Hk.
  - destruct k; [reflexivity | lia].
  - destruct k as [|k]; simpl.
    + now rewrite substring_all.
    + f_equal. apply IH. lia.
Qed.

Lemma endswith_inv (s suffix : string) :
  endswith s suffix = true -> exists a : string, s = (a ++ suffix)%string.
Proof.
  unfold endswith. intros H. apply andb_true_iff in H. destruct H as [Hle He].
  apply Nat.leb_le in Hle. apply String.eqb_eq in He.
  exists (substring 0 (String.length s - String.length suffix) s).
  rewrite <- He at 2.
  rewrite (substring_split s (String.length s - String.length suffix)) at 1
    by lia.
  do 2 f_equal. lia.
Qed.

Lemma string_app_inv_tail (c : string) :
  forall a b : string, (a ++ c)%string = (b ++ c)%string -> a = b.
Proof.
  induction a as [|x a IH]; intros b H.
  - destruct b as [|y b]; [reflexivity|].
    apply (f_equal String.length) in H. simpl in H.
    rewrite string_length_app in H. lia.
  - destruct b as [|y b].
    + apply (f_equal String.length) in H. simpl in H.
      rewrite string_length_app in H. lia.
    + simpl in H. injection H as Hx Hab. subst y. f_equal. now apply IH.
Qed.

Lemma rstrip_all_space (ws : string) :
  all_space ws = true -> rstrip ws = EmptyString.
Proof.
  induction ws as [|c ws IH]; simpl; [reflexivity|].
  intros H. apply andb_true_iff in H. destruct H as [Hc Hws].
  now rewrite (IH Hws), Hc.
Qed.

Lemma rstrip_app_space (a ws : string) :
  all_space ws = true -> rstrip (a ++ ws) = rstrip a.
Proof.
  intros Hws. induction a as [|c a IH]; simpl.
  - now apply rstrip_all_space.
  - now rewrite IH.
Qed.

Lemma rstrip_length (a : string) :
  (String.length (rstrip a) <= String.length a)%nat.
Proof.
  induction a as [|c a IH]; simpl; [lia|].
  destruct (rstrip a); [destruct (isspace c)|]; simpl in *; lia.
Qed.

(** A text that [rstrip] leaves alone does not end with a line
    terminator. *)
Lemma rstripped_no_LF (t : string) : rstrip t = t -> endswith t LF = false.
Proof.
  intros Ht. destruct (endswith t LF) eqn:E; [|reflexivity].
  destruct (endswith_inv _ _ E) as [a Ha].
  assert (Hr : rstrip t = rstrip a)
    by (rewrite Ha; apply rstrip_app_space; reflexivity).
  pose proof (rstrip_length a) as Hl.
  rewrite <- Hr, Ht, Ha, string_length_app in Hl. simpl in Hl. lia.
Qed.

Lemma one_LF_after (t : string) :
  endswith t LF = false -> ends_with_one_LF (t ++ LF)%string = true.
Proof.
  intros Ht. unfold ends_with_one_LF. rewrite endswith_app, andb_true_l.
  destruct (endswith (t ++ LF) (LF ++ LF)) eqn:E; [|reflexivity].
  destruct (endswith_inv _ _ E) as [a Ha].
  rewrite <- string_app_assoc in Ha. apply string_app_inv_tail in Ha.
  rewrite Ha, endswith_app in Ht. discriminate.
Qed.

End SuffixFacts.

(** X5.  A command typed into the input box of the application reaches the
    engine as its stripped text followed by exactly one line terminator:
    when the stripped text is not empty and the inbound relay has room,
    Submit queues that one fragment behind those already there and records
    the stripped text in the history. *)
Theorem submitted_command_reaches_engine
        (box : InputBox.t EngineThread.t) (e : EngineThread.t) :
  TkText.state (InputBox.tk box) = TkText.NORMAL ->
  InputBox.on_submit box = GameApp._on_command ->
  strip (InputBox.shown box) <> EmptyString ->
  Pipe.full (EngineThread.to_engine e) = false ->
  let cmd := strip (InputBox.shown box) in
  exists box' : InputBox.t EngineThread.t,
    InputBox._submit box e
    = Return InputBox.break
        (box',
         EngineThread.set_stdin_pipe
           {| Pipe.maxsize := Pipe.maxsize (EngineThread.to_engine e);
              Pipe.queue :=
                Pipe.queue (EngineThread.to_engine e) ++ [(cmd ++ LF)%string] |}
           e) /\
    ends_with_one_LF (cmd ++ LF)%string = true /\
    InputBox.history box' = InputBox.history box ++ [cmd] /\
    InputBox.shown box' = EmptyString.
Proof.
  intros Hst Hcb Hne Hroom cmd.
  assert (HLF : endswith cmd LF = false).
  { apply rstripped_no_LF. unfold cmd, strip. apply rstrip_idempotent. }
  exists {| InputBox.tk := {| TkText.buffer := EmptyString;
                              TkText.state := TkText.NORMAL |};
            InputBox.on_submit := InputBox.on_submit box;
            InputBox.history := InputBox.history box ++ [cmd];
            InputBox.history_idx := len (InputBox.history box ++ [cmd]) |}.
  split; [|split; [now apply one_LF_after | split; reflexivity]].
  destruct box as [[buf st] cb h i]; simpl in Hst, Hcb; subst st cb.
  unfold InputBox._submit, InputBox._get_current_line, TkText.get_all.
  unfold cmd, InputBox.shown, InputBox._get_current_line, TkText.get_all
    in Hne, HLF. simpl in Hne, HLF. simpl.
  apply truthy_str_spec in Hne. rewrite Hne.
  unfold GameApp._on_command, EngineThread.enqueue_line.
  rewrite HLF. simpl. unfold Pipe.write, Pipe.put.
  unfold EngineThread.to_engine in Hroom. rewrite Hroom. reflexivity.
Qed.

Lemma submitted_command_reaches_engine_witness :
  exists box' : InputBox.t EngineThread.t,
    InputBox._submit
      (InputBox.edit (" open mailbox " ++ LF)%string
                     (InputBox.init GameApp._on_command))
      (EngineThread.init ["story.z5"])
    = Return InputBox.break
        (box',
         EngineThread.set_stdin_pipe
           {| Pipe.maxsize := 2048;
              Pipe.queue := [("open mailbox" ++ LF)%string] |}
           (EngineThread.init ["story.z5"])).
Proof.
  destruct (submitted_command_reaches_engine
              (InputBox.edit (" open mailbox " ++ LF)%string
                             (InputBox.init GameApp._on_command))
              (EngineThread.init ["story.z5"]) eq_refl eq_refl)
    as [box' [H _]].
  - vm_compute. discriminate.
  - reflexivity.
  - exists box'. exact H.
Defined.

Section EngineFacts.

(** [enqueue_line] is one write of the line, terminated if it was not. *)
Lemma enqueue_line_write (line : string) (self : EngineThread.t) :
  EngineThread.enqueue_line line self
  = lift (fun p => EngineThread.set_stdin_pipe p self)
         (Pipe.write (if endswith line LF then line else (line ++ LF)%string)
                     (EngineThread.stdin_pipe self)).
Proof.
  unfold EngineThread.enqueue_line. destruct (endswith line LF); reflexivity.
Qed.

Lemma write_full (s : string) (p : Pipe.t) :
  0 < Pipe.maxsize p -> Pipe.maxsize p <= Pipe.qsize p ->
  Pipe.write s p = Blocked p.
Proof.
  intros H0 H1. unfold Pipe.write, Pipe.put, Pipe.full.
  apply Z.ltb_lt in H0. apply Z.leb_le in H1. now rewrite H0, H1.
Qed.

Lemma write_room (s : string) (p : Pipe.t) :
  Pipe.maxsize p <= 0 \/ Pipe.qsize p < Pipe.maxsize p ->
  Pipe.write s p
  = Return tt {| Pipe.maxsize := Pipe.maxsize p;
                 Pipe.queue := Pipe.queue p ++ [s] |}.
Proof.
  intros H. unfold Pipe.write, Pipe.put, Pipe.full.
  destruct (0 <? Pipe.maxsize p) eqn:E0; simpl; [|reflexivity].
  apply Z.ltb_lt in E0.
  replace (Pipe.maxsize p <=? Pipe.qsize p) with false; [reflexivity|].
  symmetry. apply Z.leb_gt. lia.
Qed.

Lemma set_stdin_pipe_same (e : EngineThread.t) :
  EngineThread.set_stdin_pipe (EngineThread.stdin_pipe e) e = e.
Proof. destruct e; reflexivity. Qed.

End EngineFacts.

(** X6.  Lines enqueued while the engine reads nothing are queued in order, each
    terminated if it was not, as long as they fit under the bound of the
    inbound relay (or the relay is unbounded); none of these calls waits.
    A fresh engine has room for 2048 lines: with 2048 lines unread, the
    next [enqueue_line] waits and leaves the relay as it is. *)
Theorem enqueue_lines_capacity (ls : list string) :
  let terminated (l : string) :=
    if endswith l LF then l else (l ++ LF)%string in
  (forall self : EngineThread.t,
      let p := EngineThread.stdin_pipe self in
      Pipe.maxsize p <= 0 \/ Pipe.qsize p + len ls <= Pipe.maxsize p ->
      EngineThread.enqueue_lines ls self
      = Return tt (EngineThread.set_stdin_pipe
                     {| Pipe.maxsize := Pipe.maxsize p;
                        Pipe.queue := Pipe.queue p ++ map terminated ls |}
                     self)) /\
  (forall (argv : list string) (text : string),
      len ls = 2048 ->
      bind (EngineThread.enqueue_lines ls (EngineThread.init argv))
           (fun _ e => EngineThread.enqueue_line text e)
      = Blocked (EngineThread.set_stdin_pipe
                   {| Pipe.maxsize := 2048; Pipe.queue := map terminated ls |}
                   (EngineThread.init argv))).
Proof.
  intros terminated.
  assert (A : forall self : EngineThread.t,
             let p := EngineThread.stdin_pipe self in
             Pipe.maxsize p <= 0 \/ Pipe.qsize p + len ls <= Pipe.maxsize p ->
             EngineThread.enqueue_lines ls self
             = Return tt (EngineThread.set_stdin_pipe
                            {| Pipe.maxsize := Pipe.maxsize p;
                               Pipe.queue := Pipe.queue p ++ map terminated ls |}
                            self)).
  { induction ls as [|l ls IH]; intros self p Hroom.
    - simpl. rewrite app_nil_r. destruct self as [a [m q] o b]. reflexivity.
    - cbn [EngineThread.enqueue_lines]. rewrite enqueue_line_write.
      rewrite write_room
        by (fold p; unfold len in *; simpl in Hroom; lia).
      cbn [lift bind]. rewrite IH.
      + destruct self as [a [m q] o b]. simpl.
        unfold EngineThread.set_stdin_pipe; simpl.
        now rewrite <- app_assoc.
      + destruct self as [a [m q] o b]. subst p.
        unfold Pipe.qsize, len in *. simpl in *.
        rewrite length_app. simpl. lia. }
  split; [exact A|].
  intros argv text Hlen.
  rewrite A
    by (right; unfold EngineThread.init, Pipe.init, Pipe.default_maxsize,
          Pipe.qsize, len in *; simpl; lia).
  cbn [bind]. rewrite enqueue_line_write.
  rewrite write_full.
  - reflexivity.
  - reflexivity.
  - unfold EngineThread.init, Pipe.init, Pipe.default_maxsize, Pipe.qsize,
      len in *. simpl. rewrite length_map. lia.
Qed.

Lemma enqueue_lines_capacity_witness :
  EngineThread.enqueue_lines ["north"; ("take lamp" ++ LF)%string]
                             (EngineThread.init ["story.z5"])
  = Return tt (EngineThread.set_stdin_pipe
                 {| Pipe.maxsize := 2048;
                    Pipe.queue := [("north" ++ LF)%string;
                                   ("take lamp" ++ LF)%string] |}
                 (EngineThread.init ["story.z5"])) /\
  bind (EngineThread.enqueue_lines (repeat "z" 2048)
                                   (EngineThread.init ["story.z5"]))
       (fun _ e => EngineThread.enqueue_line "look" e)
  = Blocked (EngineThread.set_stdin_pipe
               {| Pipe.maxsize := 2048;
                  Pipe.queue := repeat ("z" ++ LF)%string 2048 |}
               (EngineThread.init ["story.z5"])).
Proof.
  split.
  - refine (proj1 (enqueue_lines_capacity
                     ["north"; ("take lamp" ++ LF)%string])
                  (EngineThread.init ["story.z5"]) _).
    right. vm_compute. discriminate.
  - rewrite (proj2 (enqueue_lines_capacity (repeat "z" 2048))
                   ["story.z5"] "look").
    + rewrite map_repeat. reflexivity.
    + unfold len. rewrite repeat_length. reflexivity.
Defined.

(** X7.  Submit on a full inbound relay stalls the interface thread: the call
    waits in the callback, after the input surface was cleared and the
    stripped command was recorded in the history; the relay keeps its
    fragments. *)
Theorem submit_waits_on_full_relay
        (box : InputBox.t EngineThread.t) (e : EngineThread.t) :
  TkText.state (InputBox.tk box) = TkText.NORMAL ->
  InputBox.on_submit box = GameApp._on_command ->
  strip (InputBox.shown box) <> EmptyString ->
  0 < Pipe.maxsize (EngineThread.to_engine e) ->
  Pipe.maxsize (EngineThread.to_engine e)
  <= Pipe.qsize (EngineThread.to_engine e) ->
  let cmd := strip (InputBox.shown box) in
  InputBox._submit box e
  = Blocked ({| InputBox.tk := {| TkText.buffer := EmptyString;
                                  TkText.state := TkText.NORMAL |};
                InputBox.on_submit := GameApp._on_command;
                InputBox.history := InputBox.history box ++ [cmd];
                InputBox.history_idx := len (InputBox.history box ++ [cmd]) |},
             e).
Proof.
  intros Hst Hcb Hne H0 Hfull cmd.
  destruct box as [[buf st] cb h i]; simpl in Hst, Hcb; subst st cb.
  unfold cmd, InputBox.shown, InputBox._get_current_line, TkText.get_all in *.
  simpl in Hne. unfold InputBox._submit, InputBox._get_current_line,
    TkText.get_all. simpl.
  apply truthy_str_spec in Hne. rewrite Hne.
  unfold GameApp._on_command. rewrite enqueue_line_write.
  unfold EngineThread.to_engine in *. rewrite (write_full _ _ H0 Hfull).
  simpl. now rewrite set_stdin_pipe_same.
Qed.

Lemma submit_waits_on_full_relay_witness :
  let e := {| EngineThread.argv := ["story.z5"];
              EngineThread.stdin_pipe :=
                {| Pipe.maxsize := 2; Pipe.queue := ["n"; "s"] |};
              EngineThread.stdout_pipe := Pipe.init 2;
              EngineThread.started := true |} in
  InputBox._submit (InputBox.edit "look" (InputBox.init GameApp._on_command)) e
  = Blocked ({| InputBox.tk := {| TkText.buffer := EmptyString;
                                  TkText.state := TkText.NORMAL |};
                InputBox.on_submit := GameApp._on_command;
                InputBox.history := ["look"];
                InputBox.history_idx := 1 |}, e).
Proof.
  intros e.
  refine (submit_waits_on_full_relay
            (InputBox.edit "look" (InputBox.init GameApp._on_command)) e
            eq_refl eq_refl _ _ _).
  - vm_compute. discriminate.
  - vm_compute. reflexivity.
  - vm_compute. discriminate.
Defined.

(** X8.  The engine is invoked with [sys.argv] set to ["xyppy"] followed by the
    story path alone: the program name and every argument after the story
    file are dropped, and both standard streams are the relays of the
    application's engine thread. *)
Theorem engine_sees_story_argument
        (POLL_MS : Z) (Path : string -> string)
        (prog story : string) (rest : list string)
        (xyppy_main : EngineThread.engine) :
  exists app : GameApp.t,
    let started := {| Process.sys := Sys.init (prog :: story :: rest);
                      Process.console := [];
                      Process.gui := Some app |} in
    Process.main POLL_MS Path (Process.init (prog :: story :: rest))
    = Return tt started /\
    EngineThread.argv (GameApp.engine app) = [Path story] /\
    Process.run_worker xyppy_main started
    = lift (fun st : Sys.t * EngineThread.t =>
              {| Process.sys := fst st; Process.console := [];
                 Process.gui := Some (GameApp.set_engine (snd st) app) |})
           (xyppy_main ({| Sys.argv := ["xyppy"; Path story];
                           Sys.stdin := Sys.StdinPipe;
                           Sys.stdout := Sys.StdoutPipe |},
                        GameApp.engine app)).
Proof.
  eexists. cbv zeta. split; [|split].
  - unfold Process.main. simpl.
    assert (E : (len (prog :: story :: rest) <? 2) = false).
    { apply Z.ltb_ge. unfold len. simpl. lia. }
    rewrite E. unfold getitem.
    assert (E1 : (0 <=? 1) && (1 <? len (prog :: story :: rest)) = true).
    { simpl. apply Z.ltb_lt. unfold len. simpl. lia. }
    rewrite E1. simpl. reflexivity.
  - reflexivity.
  - reflexivity.
Qed.

(* ================================================================== *)
(** ** Command history across several key presses *)
(* ================================================================== *)

Section HistoryFacts.

Context {W : Type}.
Implicit Type self : InputBox.t W.

(** Submit of a non-blank text whose callback returns. *)
Lemma submit_returns self (w w' : W) :
  TkText.state (InputBox.tk self) = TkText.NORMAL ->
  strip (InputBox.shown self) <> EmptyString ->
  InputBox.on_submit self (strip (InputBox.shown self)) w = Return tt w' ->
  InputBox._submit self w
  = Return InputBox.break
      ({| InputBox.tk := {| TkText.buffer := EmptyString;
                            TkText.state := TkText.NORMAL |};
          InputBox.on_submit := InputBox.on_submit self;
          InputBox.history :=
            InputBox.history self ++ [strip (InputBox.shown self)];
          InputBox.history_idx :=
            len (InputBox.history self ++ [strip (InputBox.shown self)]) |},
       w').
Proof.
  intros Hst Hne Hcb.
  destruct self as [[buf st] cb h i]; simpl in Hst; subst st.
  unfold InputBox.shown, InputBox._get_current_line, TkText.get_all in *.
  simpl in *. unfold InputBox._submit, InputBox._get_current_line,
    TkText.get_all. simpl.
  apply truthy_str_spec in Hne. rewrite Hne, Hcb. reflexivity.
Qed.

(** Submit of a blank text. *)
Lemma submit_blank self (w : W) :
  TkText.state (InputBox.tk self) = TkText.NORMAL ->
  strip (InputBox.shown self) = EmptyString ->
  InputBox._submit self w
  = Return InputBox.break
      (InputBox.set_tk {| TkText.buffer := EmptyString;
                          TkText.state := TkText.NORMAL |} self, w).
Proof.
  intros Hst He.
  destruct self as [[buf st] cb h i]; simpl in Hst; subst st.
  unfold InputBox.shown, InputBox._get_current_line, TkText.get_all in *.
  simpl in *. unfold InputBox._submit, InputBox._get_current_line,
    TkText.get_all. simpl. rewrite He. reflexivity.
Qed.

Lemma len_snoc {A} (l : list A) (x : A) : len (l ++ [x]) = len l + 1.
Proof. unfold len. rewrite length_app. simpl. lia. Qed.

End HistoryFacts.

(** X9.  Pressing Up right after a submission brings the submitted command
    back: the surface shows the stripped text that was just submitted and
    the cursor is on that last entry of the history. *)
Theorem submit_then_up_recalls {W : Type} (self : InputBox.t W) (w w' : W) :
  TkText.state (InputBox.tk self) = TkText.NORMAL ->
  let cmd := strip (InputBox.shown self) in
  cmd <> EmptyString ->
  InputBox.on_submit self cmd w = Return tt w' ->
  bind (InputBox.press InputBox.Key_Return self w)
       (fun _ st => InputBox.press InputBox.Key_Up (fst st) (snd st))
  = Return InputBox.break
      ({| InputBox.tk := {| TkText.buffer := cmd;
                            TkText.state := TkText.NORMAL |};
          InputBox.on_submit := InputBox.on_submit self;
          InputBox.history := InputBox.history self ++ [cmd];
          InputBox.history_idx := len (InputBox.history self) |}, w').
Proof.
  intros Hst cmd Hne Hcb.
  cbn [InputBox.press]. rewrite (submit_returns self w w' Hst Hne Hcb).
  cbn [bind fst snd InputBox.press]. fold cmd.
  rewrite hist_prev_spec.
  - cbn [lift InputBox.history InputBox.history_idx InputBox.set_tk
         InputBox.set_history_idx InputBox.tk InputBox.on_submit].
    rewrite len_snoc.
    replace (Z.max 0 (len (InputBox.history self) + 1 - 1))
      with (len (InputBox.history self)) by (unfold len; lia).
    unfold len at 1. rewrite Nat2Z.id, nth_middle. reflexivity.
  - split; simpl; [reflexivity | unfold len; lia].
  - simpl. destruct (InputBox.history self); discriminate.
Qed.

Lemma submit_then_up_recalls_witness :
  let noop (text : string) (w : unit) := Return tt w in
  bind (InputBox.press InputBox.Key_Return
          (InputBox.edit " open mailbox " (InputBox.init noop)) tt)
       (fun _ st => InputBox.press InputBox.Key_Up (fst st) (snd st))
  = Return InputBox.break
      ({| InputBox.tk := {| TkText.buffer := "open mailbox";
                            TkText.state := TkText.NORMAL |};
          InputBox.on_submit := noop;
          InputBox.history := ["open mailbox"];
          InputBox.history_idx := 0 |}, tt).
Proof.
  intros noop.
  refine (submit_then_up_recalls
            (InputBox.edit " open mailbox " (InputBox.init noop)) tt tt
            eq_refl _ eq_refl).
  vm_compute. discriminate.
Defined.

(** X10.  Up and Down undo each other's cursor move: with a non-empty history,
    Up then Down from a cursor above 0, and Down then Up from a cursor
    below the length, end on the cursor they started from, showing the
    entry there (nothing at the past-end position) in place of whatever
    the surface held. *)
Theorem up_down_round_trip {W : Type} (self : InputBox.t W) :
  InputBox.wf self ->
  InputBox.history self <> [] ->
  let back :=
    InputBox.set_tk
      {| TkText.buffer := nth (Z.to_nat (InputBox.history_idx self))
                              (InputBox.history self) EmptyString;
         TkText.state := TkText.NORMAL |} self in
  (0 < InputBox.history_idx self ->
   bind (InputBox._hist_prev self) (fun _ s => InputBox._hist_next s)
   = Return InputBox.break back) /\
  (InputBox.history_idx self < len (InputBox.history self) ->
   bind (InputBox._hist_next self) (fun _ s => InputBox._hist_prev s)
   = Return InputBox.break back).
Proof.
  intros Hwf Hne back. pose proof Hwf as [Hst Hi].
  split; intros Hc.
  - rewrite (hist_prev_spec self Hwf Hne). cbn [bind].
    rewrite hist_next_spec;
      [| split; simpl; [reflexivity | lia] | exact Hne].
    destruct self as [[buf st] cb h i]. subst back. simpl in *.
    unfold InputBox.set_tk, InputBox.set_history_idx; simpl.
    replace (Z.min (len h) (Z.max 0 (i - 1) + 1)) with i by lia.
    reflexivity.
  - rewrite (hist_next_spec self Hwf Hne). cbn [bind].
    rewrite hist_prev_spec;
      [| split; simpl; [reflexivity | lia] | exact Hne].
    destruct self as [[buf st] cb h i]. subst back. simpl in *.
    unfold InputBox.set_tk, InputBox.set_history_idx; simpl.
    replace (Z.max 0 (Z.min (len h) (i + 1) - 1)) with i by lia.
    reflexivity.
Qed.

Lemma up_down_round_trip_witness :
  let noop (text : string) (w : unit) := Return tt w in
  let box (typed : string) :=
    {| InputBox.tk := {| TkText.buffer := typed;
                         TkText.state := TkText.NORMAL |};
       InputBox.on_submit := noop;
       InputBox.history := ["north"; "take lamp"];
       InputBox.history_idx := 1 |} in
  bind (InputBox._hist_prev (box "dro")) (fun _ s => InputBox._hist_next s)
  = Return InputBox.break (box "take lamp") /\
  bind (InputBox._hist_next (box "dro")) (fun _ s => InputBox._hist_prev s)
  = Return InputBox.break (box "take lamp").
Proof.
  intros noop box.
  assert (Hwf : InputBox.wf (box "dro"))
    by (split; [reflexivity | vm_compute; split; discriminate]).
  assert (Hne : InputBox.history (box "dro") <> []) by discriminate.
  split.
  - exact (proj1 (up_down_round_trip (box "dro") Hwf Hne) eq_refl).
  - exact (proj2 (up_down_round_trip (box "dro") Hwf Hne) eq_refl).
Defined.

(** X11.  The history is the record of what was handed to the callback.  When
    the texts [ts] are typed and submitted one after the other, with a
    callback that returns, the history grows by the stripped texts that are
    not blank, in order and with repetitions kept, and the callback has run
    on exactly those, in that order; blank submissions leave no trace.  The
    cursor ends one past the last entry as soon as one text was recorded. *)
Theorem submissions_recorded {W : Type} (f : string -> W -> W)
        (ts : list string) :
  forall (self : InputBox.t W) (w : W),
    TkText.state (InputBox.tk self) = TkText.NORMAL ->
    InputBox.on_submit self = (fun t w => Return tt (f t w)) ->
    let subs := filter truthy_str (map strip ts) in
    exists self' : InputBox.t W,
      InputBox.run_events
        (flat_map (fun t => [InputBox.Edit t;
                             InputBox.Press InputBox.Key_Return]) ts) self w
      = Return tt (self', fold_left (fun w t => f t w) subs w) /\
      InputBox.history self' = InputBox.history self ++ subs /\
      (subs <> [] -> InputBox.history_idx self' = len (InputBox.history self')) /\
      (subs = [] -> InputBox.history_idx self' = InputBox.history_idx self) /\
      TkText.state (InputBox.tk self') = TkText.NORMAL /\
      InputBox.on_submit self' = InputBox.on_submit self.
Proof.
  induction ts as [|t ts IH]; intros self w Hst Hcb subs.
  - exists self. subst subs. simpl. rewrite app_nil_r.
    repeat split; auto. congruence.
  - cbn [flat_map app InputBox.run_events].
    assert (He : InputBox.edit t self
                 = InputBox.set_tk {| TkText.buffer := t;
                                      TkText.state := TkText.NORMAL |} self)
      by (unfold InputBox.edit; now rewrite Hst).
    rewrite He. cbn [InputBox.press].
    set (typed := InputBox.set_tk _ self).
    assert (Hshown : InputBox.shown typed = t) by reflexivity.
    subst subs. cbn [map filter].
    destruct (truthy_str (strip t)) eqn:Et.
    + rewrite (submit_returns typed w (f (strip t) w));
        [| reflexivity
         | rewrite Hshown; now apply truthy_str_spec
         | rewrite Hshown; subst typed; simpl; now rewrite Hcb ].
      cbn [bind fst snd]. rewrite Hshown.
      match goal with
      | |- context [InputBox.run_events _ ?s ?w1] =>
          destruct (IH s w1 eq_refl Hcb)
            as [self' [Hr [Hh [Hi1 [Hi0 [Hs' Hc']]]]]]
      end.
      exists self'. cbn [fold_left]. split; [exact Hr|].
      cbn [InputBox.history InputBox.history_idx] in Hh, Hi0.
      split; [rewrite Hh, <- app_assoc; reflexivity|].
      split; [|split; [discriminate|split; [exact Hs' | exact Hc']]].
      intros _. destruct (filter truthy_str (map strip ts)) as [|x l] eqn:Ef.
      * rewrite (Hi0 eq_refl), Hh, app_nil_r. subst typed. reflexivity.
      * apply Hi1. discriminate.
    + assert (Hb : strip t = EmptyString) by (destruct (strip t); [reflexivity | discriminate]).
      rewrite (submit_blank typed w); [| reflexivity | now rewrite Hshown].
      cbn [bind fst snd].
      match goal with
      | |- context [InputBox.run_events _ ?s ?w1] =>
          destruct (IH s w1 eq_refl Hcb)
            as [self' [Hr [Hh [Hi1 [Hi0 [Hs' Hc']]]]]]
      end.
      exists self'. split; [exact Hr|].
      split; [exact Hh|]. split; [exact Hi1|]. split; [exact Hi0|].
      split; [exact Hs' | exact Hc'].
Qed.

Lemma submissions_recorded_witness :
  let log (text : string) (w : list string) := w ++ [text] in
  exists box' : InputBox.t (list string),
    InputBox.run_events
      [InputBox.Edit "north "; InputBox.Press InputBox.Key_Return;
       InputBox.Edit "   "; InputBox.Press InputBox.Key_Return;
       InputBox.Edit "north"; InputBox.Press InputBox.Key_Return]
      (InputBox.init (fun t w => Return tt (log t w))) []
    = Return tt (box', ["north"; "north"]) /\
    InputBox.history box' = ["north"; "north"].
Proof.
  intros log.
  destruct (submissions_recorded log ["north "; "   "; "north"]
              (InputBox.init (fun t w => Return tt (log t w))) []
              eq_refl eq_refl)
    as [box' [Hr [Hh _]]].
  exists box'. split; [exact Hr | exact Hh].
Defined.

Section ReachFacts.

Context {W : Type}.
Variable cb : string -> W -> outcome W unit.
Hypothesis cb_returns : forall (t : string) (w : W), exists w', cb t w = Return tt w'.

(** In a well-formed box whose callback returns, every key handler
    returns ["break"] and leaves a well-formed box with the same
    callback. *)
Lemma press_returns (k : InputBox.key) (self : InputBox.t W) (w : W) :
  InputBox.wf self -> InputBox.on_submit self = cb ->
  exists (self' : InputBox.t W) (w' : W),
    InputBox.press k self w = Return InputBox.break (self', w') /\
    InputBox.wf self' /\ InputBox.on_submit self' = cb.
Proof.
  intros Hwf Hcb.
  assert (Hk : exists self' w',
             InputBox.press k self w = Return InputBox.break (self', w') /\
             InputBox.on_submit self' = cb).
  { destruct k; cbn [InputBox.press].
    - destruct Hwf as [Hst _].
      destruct (truthy_str (strip (InputBox.shown self))) eqn:Et.
      + destruct (cb_returns (strip (InputBox.shown self)) w) as [w' Hw'].
        rewrite <- Hcb in Hw'.
        rewrite (submit_returns self w w' Hst); [| now apply truthy_str_spec | exact Hw'].
        eexists; eexists. split; [reflexivity | exact Hcb].
      + rewrite (submit_blank self w Hst)
          by (destruct (strip (InputBox.shown self)); [reflexivity | discriminate]).
        eexists; eexists. split; [reflexivity | exact Hcb].
    - destruct (InputBox.history self) as [|x h] eqn:Hh.
      + unfold InputBox._hist_prev. rewrite Hh. simpl. eauto.
      + rewrite hist_prev_spec by (try rewrite Hh; auto; discriminate).
        simpl. eauto.
    - destruct (InputBox.history self) as [|x h] eqn:Hh.
      + unfold InputBox._hist_next. rewrite Hh. simpl. eauto.
      + rewrite hist_next_spec by (try rewrite Hh; auto; discriminate).
        simpl. eauto. }
  destruct Hk as [self' [w' [Hp Hc]]]. exists self', w'.
  split; [exact Hp|]. split; [|exact Hc].
  exact (press_wf k self w _ self' w' Hwf Hp).
Qed.

Lemma edit_wf (s : string) (self : InputBox.t W) :
  InputBox.wf self ->
  InputBox.wf (InputBox.edit s self) /\
  InputBox.on_submit (InputBox.edit s self) = InputBox.on_submit self.
Proof.
  intros [Hst Hi]. unfold InputBox.edit. rewrite Hst.
  split; [split; [reflexivity | exact Hi] | reflexivity].
Qed.

Lemma run_events_returns (evs : list InputBox.event) :
  forall (self : InputBox.t W) (w : W),
    InputBox.wf self -> InputBox.on_submit self = cb ->
    exists (self' : InputBox.t W) (w' : W),
      InputBox.run_events evs self w = Return tt (self', w') /\
      InputBox.wf self'.
Proof.
  induction evs as [|[s|k] evs IH]; intros self w Hwf Hcb;
    cbn [InputBox.run_events].
  - eauto.
  - destruct (edit_wf s self Hwf) as [Hwf' Hcb'].
    apply IH; [exact Hwf' | congruence].
  - destruct (press_returns k self w Hwf Hcb) as [s1 [w1 [Hp [Hwf1 Hcb1]]]].
    rewrite Hp. cbn [bind fst snd]. now apply IH.
Qed.

End ReachFacts.

(** X12.  Starting from a fresh input box whose callback always returns, no
    sequence of edits and key presses makes a handler raise or wait: every
    handler returns, [history[history_idx]] is never read out of range,
    and the cursor stays in [0 .. len(history)]. *)
Theorem input_box_never_fails {W : Type}
        (cb : string -> W -> outcome W unit) (evs : list InputBox.event)
        (w : W) :
  (forall (t : string) (w0 : W), exists w', cb t w0 = Return tt w') ->
  exists (self' : InputBox.t W) (w' : W),
    InputBox.run_events evs (InputBox.init cb) w = Return tt (self', w') /\
    0 <= InputBox.history_idx self' <= len (InputBox.history self') /\
    TkText.state (InputBox.tk self') = TkText.NORMAL.
Proof.
  intros Hcb.
  destruct (run_events_returns cb Hcb evs (InputBox.init cb) w
              (init_wf cb) eq_refl) as [self' [w' [Hr [Hst Hi]]]].
  exists self', w'. auto.
Qed.

Lemma input_box_never_fails_witness :
  exists (self' : InputBox.t unit) (w' : unit),
    InputBox.run_events
      [InputBox.Press InputBox.Key_Down; InputBox.Edit "north";
       InputBox.Press InputBox.Key_Return; InputBox.Press InputBox.Key_Up;
       InputBox.Press InputBox.Key_Up; InputBox.Press InputBox.Key_Down;
       InputBox.Press InputBox.Key_Down]
      (InputBox.init (fun _ w => Return tt w)) tt
    = Return tt (self', w') /\
    0 <= InputBox.history_idx self' <= len (InputBox.history self').
Proof.
  destruct (input_box_never_fails (fun (_ : string) (w : unit) => Return tt w)
              [InputBox.Press InputBox.Key_Down; InputBox.Edit "north";
               InputBox.Press InputBox.Key_Return; InputBox.Press InputBox.Key_Up;
               InputBox.Press InputBox.Key_Up; InputBox.Press InputBox.Key_Down;
               InputBox.Press InputBox.Key_Down] tt)
    as [self' [w' [Hr [Hi _]]]].
  - intros t w0. exists w0. reflexivity.
  - exists self', w'. split; [exact Hr | exact Hi].
Defined.
